(** * ReactDOMEventListener: event delegation, bookkeeping pool and dispatch

    A shallow embedding of
    [packages/react-dom/src/events/ReactDOMEventListener.js].

    The module keeps two pieces of private mutable state, the [_enabled]
    flag and the [callbackBookkeepingPool] of recycled bookkeeping
    records, and talks to a number of collaborators it only imports: the
    instance resolver, the plugin and responder pipelines and the batching
    primitives.  The embedding threads an explicit [State] through a small
    state-and-exception monad.  Bookkeeping records live in a store indexed
    by reference, so that the pool and a running dispatch can alias the
    same record exactly as the JavaScript objects do.  Calls into the
    collaborators are recorded in a trace; what a collaborator does in
    return (mutate the tree, toggle the flag, synchronously fire another
    native event, throw) is described by a [Script] supplied by the
    environment. *)

From Stdlib Require Import ZArith Bool Lia.
From stdpp Require Import base tactics option functions strings list.

Local Open Scope Z_scope.
Local Open Scope nat_scope.
Local Open Scope list_scope.

(** ** Data model *)

(** DOM nodes ([Document | Element | Node]) and fibers are heap objects of
    the host and of the reconciler; they are named by their identity. *)
Definition Node := nat.
Definition FiberRef := nat.

(** [DOMTopLevelEventType] is an opaque identifier of an event kind. *)
Definition DOMTopLevelEventType := string.

(** [EventSystemFlags] is a number used as a bit set. *)
Definition EventSystemFlags := Z.

(** Modelled from the spec: events/EventSystemFlags is imported, not
    defined, by the module.  The flags are "bits encoding which system
    handled it and whether it is passive/active"; the values are the
    successive bits of that file.  The dispatch only compares a flag set
    with [PLUGIN_EVENT_SYSTEM]. *)
Definition PLUGIN_EVENT_SYSTEM : EventSystemFlags := 1%Z.
Definition RESPONDER_EVENT_SYSTEM : EventSystemFlags := Z.shiftl 1 1.
Definition IS_PASSIVE : EventSystemFlags := Z.shiftl 1 2.
Definition IS_ACTIVE : EventSystemFlags := Z.shiftl 1 3.
Definition PASSIVE_NOT_SUPPORTED : EventSystemFlags := Z.shiftl 1 4.

(** Modelled from the spec: shared/ReactWorkTags is imported; [HostRoot]
    is the "tag distinguishing root nodes from ordinary nodes".  Nothing
    below depends on the number. *)
Definition HostRoot : Z := 3%Z.

(** The part of a [Fiber] the module reads: [inst.return], [inst.tag] and
    [inst.stateNode.containerInfo].  [tag : WorkTag] is a number for every
    fiber, and the root's state node always carries the container the tree
    was mounted into. *)
Record Fiber := mkFiber {
  return_ : option FiberRef;
  tag : Z;
  containerInfo : Node
}.

(** A native event, reduced to its identity and the [timeStamp] property
    the module reads. *)
Record AnyNativeEvent := mkNativeEvent {
  eventId : nat;
  timeStamp : Z
}.

(** Values thrown by JavaScript code. *)
Inductive Exn :=
| TypeError
| UserError (code : nat).

(** The state of the host and of the reconciler, as far as the module can
    observe it through the functions it imports.  Handlers may change any
    of it. *)
Record World := mkWorld {
  fiber : FiberRef -> Fiber;                       (* the fiber objects *)
  closestInstance : Node -> option FiberRef;       (* getClosestInstanceFromNode *)
  fiberMounted : FiberRef -> bool;                 (* isFiberMounted *)
  eventTarget : AnyNativeEvent -> Node;            (* getEventTarget *)
  staleDiscrete : Z -> bool                        (* shouldflushDiscreteUpdates *)
}.

(** [BookKeepingInstance] *)
Record BookKeepingInstance := mkBookKeeping {
  topLevelType : option DOMTopLevelEventType;
  nativeEvent : option AnyNativeEvent;
  targetInst : option FiberRef;
  ancestors : list (option FiberRef)
}.

(** The record [release] leaves behind. *)
Definition clearedBookKeeping : BookKeepingInstance :=
  mkBookKeeping None None None [].

(** References to bookkeeping records. *)
Definition Ref := nat.

(** The two listener functions a trap can bind:
    [dispatch.bind(null, topLevelType, eventSystemFlags)]. *)
Inductive Listener :=
| BoundDispatchEvent (topLevelType : DOMTopLevelEventType)
                     (eventSystemFlags : EventSystemFlags)
| BoundDispatchInteractiveEvent (topLevelType : DOMTopLevelEventType)
                                (eventSystemFlags : EventSystemFlags).

(** Calls the module makes into imported code, with their arguments.  A
    bookkeeping record passed to a collaborator is recorded by its
    contents at the time of the call. *)
Inductive Call :=
| GetClosestInstanceFromNode (node : Node)
| IsFiberMounted (inst : FiberRef)
| ShouldflushDiscreteUpdates (timeStamp : Z)
| FlushDiscreteUpdates
| DiscreteUpdates (topLevelType : DOMTopLevelEventType)
                  (eventSystemFlags : EventSystemFlags)
                  (nativeEvent : AnyNativeEvent)
| BatchedEventUpdates (bookKeeping : BookKeepingInstance)
| RunExtractedPluginEventsInBatch (topLevelType : option DOMTopLevelEventType)
                                  (targetInst : option FiberRef)
                                  (nativeEvent : AnyNativeEvent)
                                  (eventTarget : Node)
| DispatchEventForResponderEventSystem (topLevelType : DOMTopLevelEventType)
                                       (targetInst : option FiberRef)
                                       (nativeEvent : AnyNativeEvent)
                                       (eventTarget : Node)
                                       (eventSystemFlags : EventSystemFlags)
| AddEventBubbleListener (element : Node) (eventType : string)
                         (listener : Listener)
| AddEventCaptureListener (element : Node) (eventType : string)
                          (listener : Listener)
| AddEventCaptureListenerWithPassiveFlag (element : Node) (eventType : string)
                                         (listener : Listener) (passive : bool).

(** What happens during a run, in order: calls into imported code, pushes
    onto the [ancestors] array of a bookkeeping record, and errors that
    escaped a listener and were reported by the host. *)
Inductive Event :=
| Called (c : Call)
| Pushed (bookKeeping : Ref) (ancestor : option FiberRef)
| Uncaught (e : Exn).

(** The module's state together with the world around it.  The pool is a
    JavaScript array used as a stack; the head of the list is the last
    element of the array, the one [pop] takes and the position [push]
    fills. *)
Record State := mkState {
  world : World;
  _enabled : bool;
  store : Ref -> BookKeepingInstance;
  nextRef : Ref;
  callbackBookkeepingPool : list Ref;
  trace : list Event
}.

Definition CALLBACK_BOOKKEEPING_POOL_SIZE : nat := 10.

(** What imported effectful code may do when it is called: read the world
    and the flag, mutate the world, call the exported [setEnabled], make
    the host fire a native event at a listener synchronously, throw, or
    return. *)
Inductive Script :=
| Return
| Throw (e : Exn)
| Mutate (f : World -> World) (k : Script)
| SetEnabled (enabled : option bool) (k : Script)
| Fire (l : Listener) (ev : AnyNativeEvent) (k : Script)
| Observe (k : World -> bool -> Script).

(** The imported code and configuration. *)
Record Env := mkEnv {
  enableEventAPI : bool;
  passiveBrowserEventsSupported : bool;
  isInteractiveTopLevelEventType : DOMTopLevelEventType -> bool;
  getRawEventName : DOMTopLevelEventType -> string;
  pluginPipeline : option DOMTopLevelEventType -> option FiberRef ->
                   AnyNativeEvent -> Node -> Script;
  responderSystem : DOMTopLevelEventType -> option FiberRef ->
                    AnyNativeEvent -> Node -> EventSystemFlags -> Script;
  flushWork : Script;
  finishWork : Script
}.

(** ** The monad *)

Inductive Res (A : Type) :=
| Val (a : A)
| Thrown (e : Exn)
| Diverged.
Arguments Val {A} a.
Arguments Thrown {A} e.
Arguments Diverged {A}.

Definition M (A : Type) := State -> State * Res A.

Definition ret {A} (a : A) : M A := fun s => (s, Val a).

Definition bind {A B} (m : M A) (f : A -> M B) : M B :=
  fun s =>
    match m s with
    | (s1, Val a) => f a s1
    | (s1, Thrown e) => (s1, Thrown e)
    | (s1, Diverged) => (s1, Diverged)
    end.

Definition throw {A} (e : Exn) : M A := fun s => (s, Thrown e).

Definition diverge {A} : M A := fun s => (s, Diverged).

(** [try { body } finally { cleanup }].  The cleanup runs when the body
    returns or throws; if the cleanup itself throws, that error wins.  A
    body that never returns never reaches the cleanup. *)
Definition try_finally {A} (body : M A) (cleanup : M unit) : M A :=
  fun s =>
    match body s with
    | (s1, Diverged) => (s1, Diverged)
    | (s1, res) =>
        match cleanup s1 with
        | (s2, Val _) => (s2, res)
        | (s2, Thrown e) => (s2, Thrown e)
        | (s2, Diverged) => (s2, Diverged)
        end
    end.

Definition gets {A} (f : State -> A) : M A := fun s => (s, Val (f s)).

Definition modify (f : State -> State) : M unit := fun s => (f s, Val tt).

Notation "'do' x <- m ; k" := (bind m (fun x => k))
  (at level 10, x name, m at level 100, k at level 200).
Notation "'run' m ; k" := (bind m (fun _ => k))
  (at level 10, m at level 100, k at level 200).

(** ** State updates *)

Definition record (e : Event) (s : State) : State :=
  mkState (world s) (_enabled s) (store s) (nextRef s)
          (callbackBookkeepingPool s) (trace s ++ [e]).

Definition setWorld (w : World) (s : State) : State :=
  mkState w (_enabled s) (store s) (nextRef s)
          (callbackBookkeepingPool s) (trace s).

Definition setFlag (b : bool) (s : State) : State :=
  mkState (world s) b (store s) (nextRef s)
          (callbackBookkeepingPool s) (trace s).

Definition setStore (r : Ref) (b : BookKeepingInstance) (s : State) : State :=
  mkState (world s) (_enabled s) (<[r := b]> (store s)) (nextRef s)
          (callbackBookkeepingPool s) (trace s).

Definition setPool (p : list Ref) (s : State) : State :=
  mkState (world s) (_enabled s) (store s) (nextRef s) p (trace s).

Definition call (c : Call) : M unit := modify (record (Called c)).

(** ** Reading the fiber tree *)

(** The loop [while (inst.return) inst = inst.return] of
    [findRootContainerNode].  The parent links are mutable references, so
    nothing in the types rules out a cycle; [None] means the loop did not
    finish within [fuel] iterations. *)
Fixpoint topFiber (fuel : nat) (w : World) (inst : FiberRef) : option FiberRef :=
  match fuel with
  | 0 => None
  | S fuel' =>
      match return_ (fiber w inst) with
      | Some parent => topFiber fuel' w parent
      | None => Some inst
      end
  end.

Definition findRootContainerNode (fuel : nat) (inst : FiberRef) : M (option Node) :=
  do w <- gets world;
  match topFiber fuel w inst with
  | None => diverge
  | Some inst =>
      if negb (tag (fiber w inst) =? HostRoot)%Z then
        (* This can happen if we're in a detached tree. *)
        ret None
      else ret (Some (containerInfo (fiber w inst)))
  end.

(** ** The bookkeeping pool *)

Definition getTopLevelCallbackBookKeeping
    (topLevelType : DOMTopLevelEventType) (nativeEvent : AnyNativeEvent)
    (targetInst : option FiberRef) : M Ref :=
  fun s =>
    match callbackBookkeepingPool s with
    | instance :: rest =>
        (* callbackBookkeepingPool.pop(), then the three assignments *)
        let s1 := setPool rest s in
        (setStore instance
           (mkBookKeeping (Some topLevelType) (Some nativeEvent) targetInst
              (ancestors (store s1 instance))) s1,
         Val instance)
    | [] =>
        let instance := nextRef s in
        (mkState (world s) (_enabled s)
           (<[instance :=
                mkBookKeeping (Some topLevelType) (Some nativeEvent) targetInst []]>
              (store s))
           (S instance) (callbackBookkeepingPool s) (trace s),
         Val instance)
    end.

Definition releaseTopLevelCallbackBookKeeping (instance : Ref) (s : State) : State :=
  let s1 := setStore instance (mkBookKeeping None None None []) s in
  if length (callbackBookkeepingPool s1) <? CALLBACK_BOOKKEEPING_POOL_SIZE then
    setPool (instance :: callbackBookkeepingPool s1) s1
  else s1.

(** The bookkeeping the pool is an optimisation of: every dispatch gets a
    record of its own, and a released record is cleared and dropped. *)
Definition allocateBookKeeping
    (topLevelType : DOMTopLevelEventType) (nativeEvent : AnyNativeEvent)
    (targetInst : option FiberRef) : M Ref :=
  fun s =>
    let instance := nextRef s in
    (mkState (world s) (_enabled s)
       (<[instance :=
            mkBookKeeping (Some topLevelType) (Some nativeEvent) targetInst []]>
          (store s))
       (S instance) (callbackBookkeepingPool s) (trace s),
     Val instance).

Definition dropBookKeeping (instance : Ref) (s : State) : State :=
  setStore instance (mkBookKeeping None None None []) s.

(** The dispatch functions below are written once for both ways of
    keeping the books; [Pooling] is the module as it is. *)
Inductive Policy := Pooling | AlwaysAllocate.

Definition acquireBookKeeping (p : Policy) :=
  match p with
  | Pooling => getTopLevelCallbackBookKeeping
  | AlwaysAllocate => allocateBookKeeping
  end.

Definition releaseBookKeeping (p : Policy) :=
  match p with
  | Pooling => releaseTopLevelCallbackBookKeeping
  | AlwaysAllocate => dropBookKeeping
  end.

(** ** Imported queries *)

(** Modelled from the spec: [getEventTarget] is imported; it yields the
    [nativeEventTarget] of a native event, read off the host's state. *)
Definition getEventTarget (nativeEvent : AnyNativeEvent) : M Node :=
  gets (fun s => eventTarget (world s) nativeEvent).

(** Modelled from the spec: the Instance Resolver is imported;
    [resolveInstance(node) -> instance|absent] reads the host's state.
    The call is recorded. *)
Definition getClosestInstanceFromNode (node : Node) : M (option FiberRef) :=
  run call (GetClosestInstanceFromNode node);
  gets (fun s => closestInstance (world s) node).

(** Modelled from the spec: [isMounted(instance) -> bool] of the Instance
    Resolver. *)
Definition isFiberMounted (inst : FiberRef) : M bool :=
  run call (IsFiberMounted inst);
  gets (fun s => fiberMounted (world s) inst).

(** Modelled from the spec: [shouldFlushDiscrete(timestamp) -> bool], the
    staleness policy of the batching primitives. *)
Definition shouldflushDiscreteUpdates (timeStamp : Z) : M bool :=
  run call (ShouldflushDiscreteUpdates timeStamp);
  gets (fun s => staleDiscrete (world s) timeStamp).

(** ** Exported flag *)

(** [_enabled = !!enabled] for [enabled: ?boolean]. *)
Definition setEnabled (enabled : option bool) : M unit :=
  modify (setFlag (match enabled with Some b => b | None => false end)).

Definition isEnabled : M bool := gets _enabled.

(** [bookKeeping.ancestors.push(ancestor)] *)
Definition pushAncestor (bookKeeping : Ref) (ancestor : option FiberRef) : M unit :=
  modify (fun s =>
    let b := store s bookKeeping in
    record (Pushed bookKeeping ancestor)
      (setStore bookKeeping
         (mkBookKeeping (topLevelType b) (nativeEvent b) (targetInst b)
            (ancestors b ++ [ancestor])) s)).

Section Dispatch.

Variable env : Env.
Variable policy : Policy.

(** Bound on the iterations of each loop. *)
Variable fuel : nat.

(** How the host delivers a native event fired while a handler runs. *)
Variable fire : Listener -> AnyNativeEvent -> M unit.

(** *** Imported procedures *)

(** What a call into imported code does in return. *)
Fixpoint runScript (sc : Script) : M unit :=
  match sc with
  | Return => ret tt
  | Throw e => throw e
  | Mutate f k =>
      run modify (fun s => setWorld (f (world s)) s);
      runScript k
  | SetEnabled enabled k =>
      run setEnabled enabled;
      runScript k
  | Fire l ev k =>
      run fire l ev;
      runScript k
  | Observe k =>
      do w <- gets world;
      do enabled <- isEnabled;
      runScript (k w enabled)
  end.

(** Modelled from the spec: the Handler-Invocation Pipeline
    [deliver(eventKind, targetInstance, nativeEvent, nativeEventTarget)] is
    imported; the call is recorded and the handlers do what the
    environment says. *)
Definition runExtractedPluginEventsInBatch
    (topLevelType : option DOMTopLevelEventType) (targetInst : option FiberRef)
    (nativeEvent : AnyNativeEvent) (eventTarget : Node) : M unit :=
  run call (RunExtractedPluginEventsInBatch topLevelType targetInst
              nativeEvent eventTarget);
  runScript (pluginPipeline env topLevelType targetInst nativeEvent eventTarget).

(** Modelled from the spec: the Alternate-System Delivery
    [deliverAlt(eventKind, targetInstance, nativeEvent, nativeEventTarget,
    systemFlags)] is imported. *)
Definition dispatchEventForResponderEventSystem
    (topLevelType : DOMTopLevelEventType) (targetInst : option FiberRef)
    (nativeEvent : AnyNativeEvent) (eventTarget : Node)
    (eventSystemFlags : EventSystemFlags) : M unit :=
  run call (DispatchEventForResponderEventSystem topLevelType targetInst
              nativeEvent eventTarget eventSystemFlags);
  runScript (responderSystem env topLevelType targetInst nativeEvent
               eventTarget eventSystemFlags).

(** Modelled from the spec: [flushPendingDiscrete()] of the batching
    primitives is imported. *)
Definition flushDiscreteUpdates : M unit :=
  run call FlushDiscreteUpdates;
  runScript (flushWork env).

(** Modelled from the spec: the batching primitives are imported.  A
    Batch Executor "wraps a callback so that all resulting state updates
    it triggers are coalesced into one update pass": the call is
    recorded, the callback runs, and on the way out, normally or not, the
    reconciler performs the work the batch collected, which may run
    component code. *)
Definition finishEventHandler : M unit := runScript (finishWork env).

Definition batchedEventUpdates (fn : Ref -> M unit) (bookKeeping : Ref) : M unit :=
  do b <- gets (fun s => store s bookKeeping);
  run call (BatchedEventUpdates b);
  try_finally (fn bookKeeping) finishEventHandler.

Definition discreteUpdates
    (fn : DOMTopLevelEventType -> EventSystemFlags -> AnyNativeEvent -> M unit)
    (a : DOMTopLevelEventType) (b : EventSystemFlags) (c : AnyNativeEvent) : M unit :=
  run call (DiscreteUpdates a b c);
  try_finally (fn a b c) finishEventHandler.

(** *** handleTopLevel *)

(** The [do ... while (ancestor)] loop, entered with [ancestor]. *)
Fixpoint handleTopLevel_ancestors (n : nat) (bookKeeping : Ref)
    (ancestor : option FiberRef) : M unit :=
  match n with
  | 0 => diverge
  | S n' =>
      match ancestor with
      | None =>
          run pushAncestor bookKeeping None;
          ret tt (* break *)
      | Some inst =>
          do root <- findRootContainerNode fuel inst;
          match root with
          | None => ret tt (* break *)
          | Some root =>
              run pushAncestor bookKeeping (Some inst);
              do ancestor <- getClosestInstanceFromNode root;
              match ancestor with
              | Some _ => handleTopLevel_ancestors n' bookKeeping ancestor
              | None => ret tt
              end
          end
      end
  end.

(** The [for] loop, entered with [i].  [bookKeeping.ancestors.length],
    [bookKeeping.nativeEvent] and [bookKeeping.topLevelType] are read
    from the record anew in every iteration; [getEventTarget] reads a
    property of its argument, which throws on [null]. *)
Fixpoint handleTopLevel_dispatch (n : nat) (bookKeeping : Ref) (i : nat) : M unit :=
  match n with
  | 0 => diverge
  | S n' =>
      do b <- gets (fun s => store s bookKeeping);
      if i <? length (ancestors b) then
        let targetInst := nth i (ancestors b) None in
        match nativeEvent b with
        | None => throw TypeError
        | Some nativeEvent =>
            do eventTarget <- getEventTarget nativeEvent;
            run runExtractedPluginEventsInBatch (topLevelType b) targetInst
                  nativeEvent eventTarget;
            handleTopLevel_dispatch n' bookKeeping (S i)
        end
      else ret tt
  end.

Definition handleTopLevel (bookKeeping : Ref) : M unit :=
  do targetInst <- gets (fun s => targetInst (store s bookKeeping));
  run handleTopLevel_ancestors fuel bookKeeping targetInst;
  handleTopLevel_dispatch fuel bookKeeping 0.

(** *** Dispatch *)

Definition dispatchEventForPluginEventSystem
    (topLevelType : DOMTopLevelEventType) (eventSystemFlags : EventSystemFlags)
    (nativeEvent : AnyNativeEvent) (targetInst : option FiberRef) : M unit :=
  do bookKeeping <- acquireBookKeeping policy topLevelType nativeEvent targetInst;
  try_finally
    (batchedEventUpdates handleTopLevel bookKeeping)
    (modify (releaseBookKeeping policy bookKeeping)).

(** [typeof targetInst.tag === 'number'] holds of every [Fiber]; what is
    left of the condition is the mount test. *)
Definition dispatchEvent
    (topLevelType : DOMTopLevelEventType) (eventSystemFlags : EventSystemFlags)
    (nativeEvent : AnyNativeEvent) : M unit :=
  do enabled <- gets _enabled;
  if negb enabled then ret tt
  else
    do nativeEventTarget <- getEventTarget nativeEvent;
    do targetInst <- getClosestInstanceFromNode nativeEventTarget;
    do targetInst <-
      match targetInst with
      | Some inst =>
          do mounted <- isFiberMounted inst;
          if negb mounted then ret None else ret (Some inst)
      | None => ret None
      end;
    if enableEventAPI env then
      if (eventSystemFlags =? PLUGIN_EVENT_SYSTEM)%Z then
        dispatchEventForPluginEventSystem topLevelType eventSystemFlags
          nativeEvent targetInst
      else
        dispatchEventForResponderEventSystem topLevelType targetInst
          nativeEvent nativeEventTarget eventSystemFlags
    else
      dispatchEventForPluginEventSystem topLevelType eventSystemFlags
        nativeEvent targetInst.

Definition dispatchInteractiveEvent
    (topLevelType : DOMTopLevelEventType) (eventSystemFlags : EventSystemFlags)
    (nativeEvent : AnyNativeEvent) : M unit :=
  do flush <-
    (if negb (enableEventAPI env) then ret true
     else shouldflushDiscreteUpdates (timeStamp nativeEvent));
  run (if flush then flushDiscreteUpdates else ret tt);
  discreteUpdates dispatchEvent topLevelType eventSystemFlags nativeEvent.

(** *** Trapping *)

Definition trapEventForPluginEventSystem
    (element : Node) (topLevelType : DOMTopLevelEventType) (capture : bool) : M unit :=
  let dispatch :=
    if isInteractiveTopLevelEventType env topLevelType
    then BoundDispatchInteractiveEvent
    else BoundDispatchEvent in
  let rawEventName := getRawEventName env topLevelType in
  let listener := dispatch topLevelType PLUGIN_EVENT_SYSTEM in
  if capture then call (AddEventCaptureListener element rawEventName listener)
  else call (AddEventBubbleListener element rawEventName listener).

Definition trapEventForResponderEventSystem
    (element : Node) (topLevelType : DOMTopLevelEventType) (passive : bool) : M unit :=
  if enableEventAPI env then
    let rawEventName := getRawEventName env topLevelType in
    let eventFlags := RESPONDER_EVENT_SYSTEM in
    (* If passive option is not supported, then the event will be active
       and not passive, but we flag it as using not being supported too. *)
    let '(eventFlags, passive) :=
      if passive then
        if passiveBrowserEventsSupported env then
          (Z.lor eventFlags IS_PASSIVE, passive)
        else
          (Z.lor (Z.lor eventFlags IS_ACTIVE) PASSIVE_NOT_SUPPORTED, false)
      else (Z.lor eventFlags IS_ACTIVE, passive) in
    let listener := BoundDispatchEvent topLevelType eventFlags in
    if passiveBrowserEventsSupported env then
      call (AddEventCaptureListenerWithPassiveFlag element rawEventName
              listener passive)
    else call (AddEventCaptureListener element rawEventName listener)
  else ret tt.

Definition trapBubbledEvent (topLevelType : DOMTopLevelEventType) (element : Node) : M unit :=
  trapEventForPluginEventSystem element topLevelType false.

Definition trapCapturedEvent (topLevelType : DOMTopLevelEventType) (element : Node) : M unit :=
  trapEventForPluginEventSystem element topLevelType true.

(** *** The native listener boundary *)

(** Calling a bound listener with a native event. *)
Definition invokeListener (l : Listener) (nativeEvent : AnyNativeEvent) : M unit :=
  match l with
  | BoundDispatchEvent topLevelType eventSystemFlags =>
      dispatchEvent topLevelType eventSystemFlags nativeEvent
  | BoundDispatchInteractiveEvent topLevelType eventSystemFlags =>
      dispatchInteractiveEvent topLevelType eventSystemFlags nativeEvent
  end.

(** Modelled from the spec: the native listener boundary.  The host
    calls the listener; an error that escapes it "surfaces to the host
    environment's default error reporting for uncaught errors in event
    listeners" and goes no further. *)
Definition hostCalls (l : Listener) (nativeEvent : AnyNativeEvent) : M unit :=
  fun s =>
    match invokeListener l nativeEvent s with
    | (s1, Thrown e) => (record (Uncaught e) s1, Val tt)
    | r => r
    end.

End Dispatch.

(** Native events fired from inside a handler re-enter the module through
    a listener; [depth] bounds both the nesting and the loops. *)
Fixpoint fireNative (env : Env) (policy : Policy) (depth : nat)
    : Listener -> AnyNativeEvent -> M unit :=
  match depth with
  | 0 => fun _ _ => diverge
  | S d => hostCalls env policy d (fireNative env policy d)
  end.

(** A sequence of native events delivered by the host, one after the
    other. *)
Fixpoint fireAll (env : Env) (policy : Policy) (depth : nat)
    (events : list (Listener * AnyNativeEvent)) : M unit :=
  match events with
  | [] => ret tt
  | (l, ev) :: rest =>
      run fireNative env policy depth l ev;
      fireAll env policy depth rest
  end.

(** The module as first loaded. *)
Definition initialState (w : World) : State :=
  mkState w true (fun _ => clearedBookKeeping) 0 [] [].

(** * Specification vocabulary *)

(** ** The pool invariant and the footprint of a computation *)

Record poolInv (s : State) : Prop := mkPoolInv {
  pool_bounded : Forall (fun r => r < nextRef s) (callbackBookkeepingPool s);
  pool_nodup : NoDup (callbackBookkeepingPool s);
  pool_cleared :
    Forall (fun r => store s r = clearedBookKeeping) (callbackBookkeepingPool s);
  pool_size : length (callbackBookkeepingPool s) <= CALLBACK_BOOKKEEPING_POOL_SIZE
}.

(** A record that has been handed out and not yet given back. *)
Definition inUse (s : State) (r : Ref) : Prop :=
  r < nextRef s /\ r ∉ callbackBookkeepingPool s.

(** [evolves own s s']: [s'] can follow [s] in a run in which only the
    record [own], if any, is written to among the records in use in
    [s]. *)
Record evolves (own : option Ref) (s s' : State) : Prop := mkEvolves {
  ev_inv : poolInv s';
  ev_next : nextRef s <= nextRef s';
  ev_inUse : forall r, inUse s r -> inUse s' r;
  ev_frame : forall r, inUse s r -> own <> Some r -> store s' r = store s r;
  ev_trace : exists t, trace s' = trace s ++ t /\
               forall r a, Pushed r a ∈ t -> inUse s r -> own = Some r
}.

(** State changes that leave the bookkeeping alone. *)
Record benign (g : State -> State) : Prop := mkBenign {
  benign_store : forall s, store (g s) = store s;
  benign_next : forall s, nextRef (g s) = nextRef s;
  benign_pool : forall s, callbackBookkeepingPool (g s) = callbackBookkeepingPool s;
  benign_trace : forall s, exists t, trace (g s) = trace s ++ t /\
                   forall r a, Pushed r a ∉ t
}.

(** ** Observable behaviour *)

(** Pushes onto a bookkeeping record are internal to the module; calls
    into imported code and reported errors are what the outside sees. *)
Definition observable (e : Event) : bool :=
  match e with
  | Pushed _ _ => false
  | Called _ | Uncaught _ => true
  end.

Definition calls (t : list Event) : list Event := List.filter observable t.

Record sim (s1 s2 : State) : Prop := mkSim {
  sim_world : world s1 = world s2;
  sim_enabled : _enabled s1 = _enabled s2;
  sim_calls : calls (trace s1) = calls (trace s2)
}.

(** Two runs agree on the records they own when both records are in use
    and hold the same values. *)
Definition agree (o : option (Ref * Ref)) (s1 s2 : State) : Prop :=
  match o with
  | None => True
  | Some (r1, r2) => inUse s1 r1 /\ inUse s2 r2 /\ store s1 r1 = store s2 r2
  end.

(** [simulates o m1 m2]: from states that look the same from outside, [m1]
    and [m2] keep the pool invariant, write to no record in use but their
    own, produce the same result and leave states that again look the
    same from outside. *)
Definition simulates {A} (o : option (Ref * Ref)) (m1 m2 : M A) : Prop :=
  forall s1 s2,
    poolInv s1 -> poolInv s2 -> sim s1 s2 -> agree o s1 s2 ->
    evolves (fst <$> o) s1 (fst (m1 s1)) /\
    evolves (snd <$> o) s2 (fst (m2 s2)) /\
    sim (fst (m1 s1)) (fst (m2 s2)) /\
    agree o (fst (m1 s1)) (fst (m2 s2)) /\
    snd (m1 s1) = snd (m2 s2).

(** A computation that writes to no record in use. *)
Definition stable {A} (m : M A) : Prop :=
  forall s, poolInv s -> evolves None s (fst (m s)).


(** ** Shape of the fiber trees *)

(** [rootOf w inst top]: following [return] from [inst] ends at [top]. *)
Inductive rootOf (w : World) : FiberRef -> FiberRef -> Prop :=
| rootOf_here inst :
    return_ (fiber w inst) = None -> rootOf w inst inst
| rootOf_up inst parent top :
    return_ (fiber w inst) = Some parent -> rootOf w parent top ->
    rootOf w inst top.

(** [inst] belongs to a tree mounted into [container]. *)
Definition mountedIn (w : World) (inst : FiberRef) (container : Node) : Prop :=
  exists top, rootOf w inst top /\ tag (fiber w top) = HostRoot /\
              containerInfo (fiber w top) = container.

(** [inst] belongs to a tree whose top fiber is not a root. *)
Definition detached (w : World) (inst : FiberRef) : Prop :=
  exists top, rootOf w inst top /\ tag (fiber w top) <> HostRoot.

(** The trees an event on [inst] passes through, innermost first, when
    the nesting is finite. *)
Inductive entryPoints (w : World) : FiberRef -> list FiberRef -> Prop :=
| entry_detached inst :
    detached w inst -> entryPoints w inst []
| entry_outermost inst container :
    mountedIn w inst container ->
    closestInstance w container = None ->
    entryPoints w inst [inst]
| entry_nested inst container outer l :
    mountedIn w inst container ->
    closestInstance w container = Some outer ->
    entryPoints w outer l ->
    entryPoints w inst (inst :: l).

(** [extended r l s s']: [s'] is [s] with [l] appended to the ancestors of
    record [r] and nothing else about the bookkeeping changed. *)
Record extended (r : Ref) (l : list (option FiberRef)) (s s' : State) : Prop :=
  mkExtended {
    ext_world : world s' = world s;
    ext_enabled : _enabled s' = _enabled s;
    ext_next : nextRef s' = nextRef s;
    ext_pool : callbackBookkeepingPool s' = callbackBookkeepingPool s;
    ext_own :
      store s' r =
      mkBookKeeping (topLevelType (store s r)) (nativeEvent (store s r))
        (targetInst (store s r)) (ancestors (store s r) ++ l);
    ext_others : forall r', r' <> r -> store s' r' = store s r'
  }.

(** What the traversal loop of [handleTopLevel] adds to the trace: pushes
    onto its own record and calls of the instance resolver. *)
Definition traversalEvent (r : Ref) (e : Event) : Prop :=
  (exists a, e = Pushed r a) \/
  (exists node, e = Called (GetClosestInstanceFromNode node)).

(** The routing at the end of [dispatchEvent], taken with [targetInst]
    null. *)
Definition untargetedDispatch (env : Env) (policy : Policy) (fuel : nat)
    (fire : Listener -> AnyNativeEvent -> M unit)
    (topLevelType : DOMTopLevelEventType) (eventSystemFlags : EventSystemFlags)
    (nativeEvent : AnyNativeEvent) (nativeEventTarget : Node) : M unit :=
  if enableEventAPI env then
    if (eventSystemFlags =? PLUGIN_EVENT_SYSTEM)%Z then
      dispatchEventForPluginEventSystem env policy fuel fire topLevelType
        eventSystemFlags nativeEvent None
    else
      dispatchEventForResponderEventSystem env fire topLevelType None
        nativeEvent nativeEventTarget eventSystemFlags
  else
    dispatchEventForPluginEventSystem env policy fuel fire topLevelType
      eventSystemFlags nativeEvent None.

(** The first two statements of [dispatchInteractiveEvent]. *)
Definition flushIfStale (env : Env)
    (fire : Listener -> AnyNativeEvent -> M unit)
    (nativeEvent : AnyNativeEvent) : M unit :=
  do flush <-
    (if negb (enableEventAPI env) then ret true
     else shouldflushDiscreteUpdates (timeStamp nativeEvent));
  if flush then flushDiscreteUpdates env fire else ret tt.

(** * A small scene, used to exercise the statements below *)

(** Fiber 1 sits under the root fiber 2 of a tree mounted into node 10;
    node 10 belongs to fiber 3 of an outer tree whose root fiber 4 is
    mounted into node 20.  Fiber 5 is the top of a detached tree; it owns
    node 12, into which the tree of fiber 7, with root fiber 8, is
    mounted.  Fiber 6 is resolved from node 13 before its mount is
    committed.  The target of native event [n] is node [11 + n]. *)
Definition exampleWorld : World :=
  mkWorld
    (fun f =>
       match f with
       | 1 => mkFiber (Some 2) 5 0
       | 2 => mkFiber None HostRoot 10
       | 3 => mkFiber (Some 4) 5 0
       | 4 => mkFiber None HostRoot 20
       | 7 => mkFiber (Some 8) 5 0
       | 8 => mkFiber None HostRoot 12
       | _ => mkFiber None 5 0
       end)
    (fun n =>
       match n with
       | 11 => Some 1
       | 10 => Some 3
       | 12 => Some 5
       | 13 => Some 6
       | 14 => Some 7
       | _ => None
       end)
    (fun f => match f with 6 => false | _ => true end)
    (fun ev => 11 + eventId ev)
    (fun ts => (ts <? 100)%Z).

(** Clicks are interactive; a scroll handler throws; a focus handler
    makes the host fire a click. *)
Definition exampleEnv : Env :=
  mkEnv false true
    (fun k => bool_decide (k = "click"))
    (fun k => k)
    (fun k t ev tgt =>
       if bool_decide (k = Some "scroll") then Throw (UserError 7)
       else if bool_decide (k = Some "focus") then
         Fire (BoundDispatchInteractiveEvent "click" PLUGIN_EVENT_SYSTEM)
              (mkNativeEvent 0 5) Return
       else Return)
    (fun k t ev tgt fl => Return)
    Return
    Return.

Definition exampleEvent : AnyNativeEvent := mkNativeEvent 0 50.

Definition exampleEvents : list (Listener * AnyNativeEvent) :=
  [(BoundDispatchEvent "scroll" PLUGIN_EVENT_SYSTEM, mkNativeEvent 0 50);
   (BoundDispatchEvent "focus" PLUGIN_EVENT_SYSTEM, mkNativeEvent 0 60);
   (BoundDispatchInteractiveEvent "click" PLUGIN_EVENT_SYSTEM, mkNativeEvent 5 70)].

(** The state in which the batched call of a scroll on fiber 1 fails. *)
Definition exampleFailedBatch : State :=
  fst (batchedEventUpdates exampleEnv (fireNative exampleEnv Pooling 3)
         (handleTopLevel exampleEnv 3 (fireNative exampleEnv Pooling 3)) 0
         (fst (getTopLevelCallbackBookKeeping "scroll" exampleEvent (Some 1)
                 (initialState exampleWorld)))).

(** The module switched off before any event. *)
Definition exampleDisabled : State := setFlag false (initialState exampleWorld).

(** * Vocabulary for further properties *)

(** The delivery loop of [handleTopLevel], run over a list of entry points
    instead of the record: each entry in turn is handed to the pipeline
    with the event target as it is read at that moment; an error ends the
    loop. *)
Fixpoint deliverEach (env : Env) (fire : Listener -> AnyNativeEvent -> M unit)
    (topLevelType : option DOMTopLevelEventType) (nativeEvent : AnyNativeEvent)
    (entries : list (option FiberRef)) : M unit :=
  match entries with
  | [] => ret tt
  | targetInst :: rest =>
      do eventTarget <- getEventTarget nativeEvent;
      run runExtractedPluginEventsInBatch env fire topLevelType targetInst
            nativeEvent eventTarget;
      deliverEach env fire topLevelType nativeEvent rest
  end.

(** The listener an attach call registers. *)
Definition listenerOf (c : Call) : option Listener :=
  match c with
  | AddEventBubbleListener _ _ l
  | AddEventCaptureListener _ _ l
  | AddEventCaptureListenerWithPassiveFlag _ _ l _ => Some l
  | _ => None
  end.

(** Imported code that never makes the host fire a native event. *)
Fixpoint noFire (sc : Script) : Prop :=
  match sc with
  | Return | Throw _ => True
  | Mutate _ k | SetEnabled _ k => noFire k
  | Fire _ _ _ => False
  | Observe k => forall w enabled, noFire (k w enabled)
  end.

Record quietEnv (env : Env) : Prop := mkQuietEnv {
  quiet_plugin : forall k t ev tgt, noFire (pluginPipeline env k t ev tgt);
  quiet_responder :
    forall k t ev tgt fl, noFire (responderSystem env k t ev tgt fl);
  quiet_flush : noFire (flushWork env);
  quiet_finish : noFire (finishWork env)
}.

(** A computation that neither allocates a record nor moves one in or out
    of the pool. *)
Definition keepsPool {A} (m : M A) : Prop :=
  forall s,
    nextRef (fst (m s)) = nextRef s /\
    callbackBookkeepingPool (fst (m s)) = callbackBookkeepingPool s.

(** Between dispatches of a module whose handlers fire no events: no
    record yet, or the one record, back in the pool. *)
Definition recycled (s : State) : Prop :=
  (nextRef s = 0 /\ callbackBookkeepingPool s = []) \/
  (nextRef s = 1 /\ callbackBookkeepingPool s = [0]).

(** A computation that takes the module from one such state to another
    unless it fails to return, and never allocates a second record. *)
Definition recycles (m : M unit) : Prop :=
  forall s, recycled s ->
    nextRef (fst (m s)) <= 1 /\
    (snd (m s) <> Diverged -> recycled (fst (m s))).

(** A fiber whose parent link points back at itself. *)
Definition cyclicWorld : World :=
  mkWorld
    (fun f => mkFiber (Some f) 5 0)
    (fun n => Some n)
    (fun _ => true)
    (fun ev => eventId ev)
    (fun _ => false).

(** Handlers that change the world, switch the module off or throw, but
    fire nothing. *)
Definition quietExampleEnv : Env :=
  mkEnv true true
    (fun k => bool_decide (k = "click"))
    (fun k => k)
    (fun k t ev tgt =>
       if bool_decide (k = Some "scroll") then Throw (UserError 7)
       else Mutate (fun w => w) (SetEnabled (Some true) Return))
    (fun k t ev tgt fl => Return)
    (Observe (fun _ enabled => if enabled then Return else Throw TypeError))
    Return.


(** * Properties *)

(** ** The footprint of a computation *)

Ltac splits := repeat match goal with |- _ /\ _ => split end.

Lemma evolves_refl own s : poolInv s -> evolves own s s.
Proof.
  intros H. split; auto.
  exists []. rewrite app_nil_r. split; [done|].
  intros r a Hin. by apply elem_of_nil in Hin.
Qed.

Lemma evolves_trans own s1 s2 s3 :
  evolves own s1 s2 -> evolves own s2 s3 -> evolves own s1 s3.
Proof.
  intros [I1 N1 U1 F1 (t1 & E1 & P1)] [I2 N2 U2 F2 (t2 & E2 & P2)].
  split; auto.
  - lia.
  - intros r Hr Ho. rewrite F2; auto.
  - exists (t1 ++ t2). split.
    + by rewrite E2, E1, app_assoc.
    + intros r a Hin Hr. apply elem_of_app in Hin as [Hin|Hin]; eauto.
Qed.

Lemma evolves_weaken own s s' : evolves None s s' -> evolves own s s'.
Proof.
  intros [I N U F (t & E & P)]. split; auto.
  exists t. split; [done|].
  intros r a Hin Hr. by specialize (P r a Hin Hr).
Qed.

Lemma benign_inv g s : benign g -> poolInv s -> poolInv (g s).
Proof.
  intros [Hs Hn Hp _] [B N C L].
  split; rewrite ?Hp, ?Hn, ?Hs; auto.
Qed.

Lemma benign_inUse g s r : benign g -> inUse (g s) r <-> inUse s r.
Proof.
  intros [Hs Hn Hp _]. unfold inUse. by rewrite Hp, Hn.
Qed.

Lemma benign_evolves own g s : benign g -> poolInv s -> evolves own s (g s).
Proof.
  intros Hg Hinv. split.
  - by apply benign_inv.
  - by rewrite (benign_next _ Hg).
  - intros r Hr. by apply benign_inUse.
  - intros r _ _. by rewrite (benign_store _ Hg).
  - destruct (benign_trace _ Hg s) as (t & E & P).
    exists t. split; [done|]. intros r a Hin. by destruct (P r a).
Qed.

Lemma benign_record_called c : benign (record (Called c)).
Proof.
  split; try done. intros s. exists [Called c]. split; [done|].
  intros r a Hin. apply list_elem_of_singleton in Hin. discriminate.
Qed.

Lemma benign_record_uncaught e : benign (record (Uncaught e)).
Proof.
  split; try done. intros s. exists [Uncaught e]. split; [done|].
  intros r a Hin. apply list_elem_of_singleton in Hin. discriminate.
Qed.

Lemma benign_quiet g :
  (forall s, store (g s) = store s) ->
  (forall s, nextRef (g s) = nextRef s) ->
  (forall s, callbackBookkeepingPool (g s) = callbackBookkeepingPool s) ->
  (forall s, trace (g s) = trace s) ->
  benign g.
Proof.
  intros Hs Hn Hp Ht. split; auto.
  intros s. exists []. rewrite app_nil_r. split; [auto|].
  intros r a Hin. by apply elem_of_nil in Hin.
Qed.

Lemma benign_setWorld f : benign (fun s => setWorld (f (world s)) s).
Proof. by apply benign_quiet. Qed.

Lemma benign_setFlag b : benign (setFlag b).
Proof. by apply benign_quiet. Qed.

Lemma sim_refl s : sim s s.
Proof. by split. Qed.

Lemma calls_app t1 t2 : calls (t1 ++ t2) = calls t1 ++ calls t2.
Proof. apply List.filter_app. Qed.

Lemma simulates_ret {A} o (a : A) : simulates o (ret a) (ret a).
Proof.
  intros s1 s2 I1 I2 S Ag. cbn.
  splits; auto using evolves_refl.
Qed.

Lemma simulates_throw {A} o e : simulates o (@throw A e) (throw e).
Proof.
  intros s1 s2 I1 I2 S Ag. cbn.
  splits; auto using evolves_refl.
Qed.

Lemma simulates_diverge {A} o : simulates o (@diverge A) diverge.
Proof.
  intros s1 s2 I1 I2 S Ag. cbn.
  splits; auto using evolves_refl.
Qed.

Lemma simulates_bind {A B} o (m1 m2 : M A) (f1 f2 : A -> M B) :
  simulates o m1 m2 ->
  (forall a, simulates o (f1 a) (f2 a)) ->
  simulates o (bind m1 f1) (bind m2 f2).
Proof.
  intros Hm Hf s1 s2 I1 I2 S Ag.
  destruct (Hm s1 s2 I1 I2 S Ag) as (E1 & E2 & S' & Ag' & R).
  unfold bind.
  destruct (m1 s1) as [s1' r1], (m2 s2) as [s2' r2]. cbn in *. subst r2.
  destruct r1 as [a| |]; cbn; auto.
  destruct (Hf a s1' s2' (ev_inv _ _ _ E1) (ev_inv _ _ _ E2) S' Ag')
    as (E1' & E2' & S'' & Ag'' & R').
  eauto 10 using evolves_trans.
Qed.

Lemma agree_weaken o s1 s2 s1' s2' :
  agree o s1 s2 -> evolves None s1 s1' -> evolves None s2 s2' ->
  agree o s1' s2'.
Proof.
  destruct o as [[r1 r2]|]; [|done]. cbn.
  intros (U1 & U2 & E) H1 H2.
  split; [by apply (ev_inUse _ _ _ H1)|].
  split; [by apply (ev_inUse _ _ _ H2)|].
  rewrite (ev_frame _ _ _ H1), (ev_frame _ _ _ H2); auto.
Qed.

Lemma simulates_weaken {A} o (m1 m2 : M A) :
  simulates None m1 m2 -> simulates o m1 m2.
Proof.
  intros Hm s1 s2 I1 I2 S Ag.
  destruct (Hm s1 s2 I1 I2 S I) as (E1 & E2 & S' & _ & R).
  splits; eauto using evolves_weaken, agree_weaken.
Qed.

Lemma simulates_modify o g :
  benign g -> (forall s1 s2, sim s1 s2 -> sim (g s1) (g s2)) ->
  simulates o (modify g) (modify g).
Proof.
  intros Hg Hs. apply simulates_weaken.
  intros s1 s2 I1 I2 S _. cbn.
  splits; auto using benign_evolves.
Qed.

Lemma sim_record e s1 s2 : sim s1 s2 -> sim (record e s1) (record e s2).
Proof.
  intros [W E C]. split; auto. cbn. by rewrite !calls_app, C.
Qed.

Lemma simulates_call o c : simulates o (call c) (call c).
Proof.
  apply simulates_modify; auto using benign_record_called, sim_record.
Qed.

Lemma simulates_gets {A} o (f : State -> A) :
  (forall s1 s2, sim s1 s2 -> f s1 = f s2) ->
  simulates o (gets f) (gets f).
Proof.
  intros Hf s1 s2 I1 I2 S Ag. cbn.
  splits; auto using evolves_refl.
  f_equal. auto.
Qed.

Lemma simulates_gets_own {A} r1 r2 (f : BookKeepingInstance -> A) :
  simulates (Some (r1, r2)) (gets (fun s => f (store s r1)))
                            (gets (fun s => f (store s r2))).
Proof.
  intros s1 s2 I1 I2 S Ag. cbn.
  pose proof Ag as (U1 & U2 & E).
  splits; auto using evolves_refl.
  by rewrite E.
Qed.

Lemma simulates_try_finally {A} o (m1 m2 : M A) (c1 c2 : M unit) :
  simulates o m1 m2 -> simulates o c1 c2 ->
  simulates o (try_finally m1 c1) (try_finally m2 c2).
Proof.
  intros Hm Hc s1 s2 I1 I2 S Ag.
  destruct (Hm s1 s2 I1 I2 S Ag) as (E1 & E2 & S' & Ag' & R).
  unfold try_finally.
  destruct (m1 s1) as [s1' r1], (m2 s2) as [s2' r2]. cbn in *. subst r2.
  destruct (Hc s1' s2' (ev_inv _ _ _ E1) (ev_inv _ _ _ E2) S' Ag')
    as (E1' & E2' & S'' & Ag'' & R').
  destruct (c1 s1') as [s1'' q1], (c2 s2') as [s2'' q2]. cbn in *. subst q2.
  destruct r1, q1; cbn; eauto 10 using evolves_trans.
Qed.

(** ** Acquire and release *)

Lemma acquire_spec p k ev t s :
  poolInv s ->
  exists r s1,
    acquireBookKeeping p k ev t s = (s1, Val r) /\
    evolves None s s1 /\ inUse s1 r /\ ~ inUse s r /\
    store s1 r = mkBookKeeping (Some k) (Some ev) t [] /\
    world s1 = world s /\ _enabled s1 = _enabled s /\ trace s1 = trace s.
Proof.
  intros [B N C L].
  assert (forall s1 r,
    allocateBookKeeping k ev t s = (s1, Val r) ->
    evolves None s s1 /\ inUse s1 r /\ ~ inUse s r /\
    store s1 r = mkBookKeeping (Some k) (Some ev) t [] /\
    world s1 = world s /\ _enabled s1 = _enabled s /\ trace s1 = trace s) as Hfresh.
  { intros s1 r [= <- <-]. cbn.
    assert (nextRef s ∉ callbackBookkeepingPool s) as Hnot.
    { intros Hin. rewrite Forall_forall in B. apply B in Hin. lia. }
    splits; try done.
    - split; cbn.
      + split; cbn; auto.
        * eapply Forall_impl; [exact B|]. cbn. lia.
        * rewrite Forall_forall in C |- *. intros r Hr.
          rewrite fn_lookup_insert_ne; [auto|]. by intros <-.
      + lia.
      + intros r [Hr Hp]. split; cbn; [lia|done].
      + intros r [Hr _] _. rewrite fn_lookup_insert_ne; [done|lia].
      + exists []. rewrite app_nil_r. split; [done|].
        intros r a Hin. by apply elem_of_nil in Hin.
    - split; cbn; [lia|done].
    - intros [Hlt _]. lia.
    - by rewrite fn_lookup_insert. }
  destruct p; cbn [acquireBookKeeping]; [|eauto].
  unfold getTopLevelCallbackBookKeeping.
  destruct (callbackBookkeepingPool s) as [|r rest] eqn:Hpool.
  { eexists _, _. split; [reflexivity|]. apply Hfresh.
    unfold allocateBookKeeping. by rewrite Hpool. }
  exists r. eexists. split; [reflexivity|].
  apply Forall_cons in B as [Br Brest].
  apply NoDup_cons in N as [Nr Nrest].
  apply Forall_cons in C as [Cr Crest].
  cbn. splits; try done.
  - split; cbn.
    + split; cbn; auto.
      * rewrite Forall_forall in Crest |- *. intros r' Hr'.
        rewrite fn_lookup_insert_ne; [auto|]. by intros <-.
      * cbn in L. lia.
    + lia.
    + intros r' [Hr' Hp]. rewrite Hpool in Hp. split; cbn; [done|].
      intros Hin. apply Hp. by right.
    + intros r' [_ Hp] _. rewrite Hpool in Hp.
      rewrite fn_lookup_insert_ne; [done|]. intros <-. apply Hp. by left.
    + exists []. rewrite app_nil_r. split; [done|].
      intros r' a Hin. by apply elem_of_nil in Hin.
  - intros [_ Hp]. apply Hp. rewrite Hpool. by left.
  - rewrite fn_lookup_insert. by rewrite Cr.
Qed.

Lemma release_spec p r s :
  poolInv s -> inUse s r ->
  poolInv (releaseBookKeeping p r s) /\
  nextRef (releaseBookKeeping p r s) = nextRef s /\
  (forall r', inUse s r' -> r' <> r ->
     inUse (releaseBookKeeping p r s) r' /\
     store (releaseBookKeeping p r s) r' = store s r') /\
  world (releaseBookKeeping p r s) = world s /\
  _enabled (releaseBookKeeping p r s) = _enabled s /\
  trace (releaseBookKeeping p r s) = trace s.
Proof.
  intros [B N C L] [Hr Hp].
  assert (Forall (fun r' => <[r := clearedBookKeeping]> (store s) r' = clearedBookKeeping)
            (callbackBookkeepingPool s)) as C'.
  { rewrite Forall_forall in C |- *. intros r' Hr'.
    rewrite fn_lookup_insert_ne; [auto|]. by intros <-. }
  destruct p; cbn [releaseBookKeeping].
  - unfold releaseTopLevelCallbackBookKeeping. cbv zeta.
    fold clearedBookKeeping.
    destruct (_ <? _) eqn:Hlt; cbn.
    + apply Nat.ltb_lt in Hlt. cbn in Hlt. splits; try done.
      * split; cbn.
        -- by apply Forall_cons.
        -- by apply NoDup_cons.
        -- apply Forall_cons. split; [|done]. by rewrite fn_lookup_insert.
        -- unfold CALLBACK_BOOKKEEPING_POOL_SIZE in *. lia.
      * intros r' [Hr' Hp'] Hne. split.
        -- split; cbn; [done|]. intros Hin.
           apply elem_of_cons in Hin as [->|Hin]; tauto.
        -- by rewrite fn_lookup_insert_ne.
    + splits; try done.
      intros r' [Hr' Hp'] Hne. split; [by split|].
      by rewrite fn_lookup_insert_ne.
  - unfold dropBookKeeping. cbn. fold clearedBookKeeping.
    splits; try done.
    intros r' [Hr' Hp'] Hne. split; [by split|].
    by rewrite fn_lookup_insert_ne.
Qed.

(** ** Pure imports and record updates *)

Lemma simulates_findRootContainerNode o fuel inst :
  simulates o (findRootContainerNode fuel inst) (findRootContainerNode fuel inst).
Proof.
  unfold findRootContainerNode.
  apply simulates_bind; [apply simulates_gets; by intros ?? []|].
  intros w. destruct (topFiber fuel w inst); [|apply simulates_diverge].
  destruct (negb _); apply simulates_ret.
Qed.

Lemma simulates_getEventTarget o ev :
  simulates o (getEventTarget ev) (getEventTarget ev).
Proof. apply simulates_gets. by intros ?? [-> _ _]. Qed.

Lemma simulates_getClosestInstanceFromNode o node :
  simulates o (getClosestInstanceFromNode node) (getClosestInstanceFromNode node).
Proof.
  apply simulates_bind; [apply simulates_call|].
  intros _. apply simulates_gets. by intros ?? [-> _ _].
Qed.

Lemma simulates_isFiberMounted o inst :
  simulates o (isFiberMounted inst) (isFiberMounted inst).
Proof.
  apply simulates_bind; [apply simulates_call|].
  intros _. apply simulates_gets. by intros ?? [-> _ _].
Qed.

Lemma simulates_shouldflushDiscreteUpdates o ts :
  simulates o (shouldflushDiscreteUpdates ts) (shouldflushDiscreteUpdates ts).
Proof.
  apply simulates_bind; [apply simulates_call|].
  intros _. apply simulates_gets. by intros ?? [-> _ _].
Qed.

Lemma simulates_setEnabled o enabled :
  simulates o (setEnabled enabled) (setEnabled enabled).
Proof.
  apply simulates_modify; [apply benign_setFlag|].
  by intros ?? [].
Qed.

Lemma simulates_isEnabled o : simulates o isEnabled isEnabled.
Proof. apply simulates_gets. by intros ?? []. Qed.

Lemma simulates_pushAncestor r1 r2 a :
  simulates (Some (r1, r2)) (pushAncestor r1 a) (pushAncestor r2 a).
Proof.
  assert (forall r s, poolInv s -> inUse s r ->
            evolves (Some r) s (fst (pushAncestor r a s))) as Hev.
  { intros r s [B N C L] [Hr Hp]. split; cbn; auto.
    - split; cbn; auto.
      rewrite Forall_forall in C |- *. intros r' Hr'.
      rewrite fn_lookup_insert_ne; [auto|]. by intros <-.
    - intros r' _ Hne. rewrite fn_lookup_insert_ne; [done|]. congruence.
    - exists [Pushed r a]. split; [done|].
      intros r' a' Hin _. apply list_elem_of_singleton in Hin. congruence. }
  intros s1 s2 I1 I2 [W E C] (U1 & U2 & Eq).
  splits.
  - by apply Hev.
  - by apply Hev.
  - split; cbn; auto. unfold calls in *.
    rewrite !List.filter_app. cbn. by rewrite !app_nil_r.
  - cbn. splits.
    + apply (ev_inUse _ _ _ (Hev r1 s1 I1 U1)), U1.
    + apply (ev_inUse _ _ _ (Hev r2 s2 I2 U2)), U2.
    + by rewrite !fn_lookup_insert, Eq.
  - done.
Qed.

Lemma evolves_past_own s s1 s2 r :
  evolves None s s1 -> ~ inUse s r -> evolves (Some r) s1 s2 ->
  evolves None s s2.
Proof.
  intros [I1 N1 U1 F1 (t1 & E1 & P1)] Hr [I2 N2 U2 F2 (t2 & E2 & P2)].
  split; auto.
  - lia.
  - intros r' Hr' _. rewrite F2; auto. intros [= ->]. auto.
  - exists (t1 ++ t2). split; [by rewrite E2, E1, app_assoc|].
    intros r' a Hin Hr'. apply elem_of_app in Hin as [Hin|Hin]; eauto.
    assert (Some r = Some r') as [= ->] by eauto. done.
Qed.

Lemma evolves_release p s s2 r :
  evolves None s s2 -> inUse s2 r -> ~ inUse s r ->
  evolves None s (releaseBookKeeping p r s2).
Proof.
  intros [I N U F (t & E & P)] Hr Hnot.
  destruct (release_spec p r s2 I Hr) as (I' & N' & F' & _ & _ & T').
  assert (forall r', inUse s r' -> r' <> r) as Hne by (by intros r' ? ->).
  split; auto.
  - lia.
  - intros r' Hr'. apply F'; auto.
  - intros r' Hr' _. destruct (F' r') as [_ ->]; auto.
  - exists t. by rewrite T'.
Qed.

(** ** The dispatch functions *)

Section Simulation.

Variable env : Env.
Variables p1 p2 : Policy.
Variable fuel : nat.
Variables fire1 fire2 : Listener -> AnyNativeEvent -> M unit.
Hypothesis fire_simulates :
  forall l ev, simulates None (fire1 l ev) (fire2 l ev).

Lemma simulates_runScript o sc :
  simulates o (runScript fire1 sc) (runScript fire2 sc).
Proof.
  induction sc as [|e|f k IH|b k IH|l ev k IH|k IH]; cbn [runScript].
  - apply simulates_ret.
  - apply simulates_throw.
  - apply simulates_bind; [|done].
    apply simulates_modify; [apply benign_setWorld|].
    intros ?? [W E C]. split; cbn; auto. by rewrite W.
  - apply simulates_bind; [apply simulates_setEnabled|done].
  - apply simulates_bind; [|done].
    apply simulates_weaken, fire_simulates.
  - apply simulates_bind; [apply simulates_gets; by intros ?? []|].
    intros w. apply simulates_bind; [apply simulates_isEnabled|].
    intros b. apply IH.
Qed.

Lemma simulates_runExtractedPluginEventsInBatch o k t ev tgt :
  simulates o (runExtractedPluginEventsInBatch env fire1 k t ev tgt)
              (runExtractedPluginEventsInBatch env fire2 k t ev tgt).
Proof.
  apply simulates_bind; [apply simulates_call|].
  intros _. apply simulates_runScript.
Qed.

Lemma simulates_dispatchEventForResponderEventSystem o k t ev tgt fl :
  simulates o (dispatchEventForResponderEventSystem env fire1 k t ev tgt fl)
              (dispatchEventForResponderEventSystem env fire2 k t ev tgt fl).
Proof.
  apply simulates_bind; [apply simulates_call|].
  intros _. apply simulates_runScript.
Qed.

Lemma simulates_flushDiscreteUpdates o :
  simulates o (flushDiscreteUpdates env fire1) (flushDiscreteUpdates env fire2).
Proof.
  apply simulates_bind; [apply simulates_call|].
  intros _. apply simulates_runScript.
Qed.

Lemma simulates_finishEventHandler o :
  simulates o (finishEventHandler env fire1) (finishEventHandler env fire2).
Proof. apply simulates_runScript. Qed.

Lemma simulates_handleTopLevel_ancestors n r1 r2 ancestor :
  simulates (Some (r1, r2))
    (handleTopLevel_ancestors fuel n r1 ancestor)
    (handleTopLevel_ancestors fuel n r2 ancestor).
Proof.
  revert ancestor.
  induction n as [|n IH]; intros ancestor; cbn [handleTopLevel_ancestors].
  { apply simulates_diverge. }
  destruct ancestor as [inst|].
  - apply simulates_bind; [apply simulates_findRootContainerNode|].
    intros [root|]; [|apply simulates_ret].
    apply simulates_bind; [apply simulates_pushAncestor|]. intros _.
    apply simulates_bind; [apply simulates_getClosestInstanceFromNode|].
    intros [next|]; [apply IH|apply simulates_ret].
  - apply simulates_bind; [apply simulates_pushAncestor|]. intros _.
    apply simulates_ret.
Qed.

Lemma simulates_handleTopLevel_dispatch n r1 r2 i :
  simulates (Some (r1, r2))
    (handleTopLevel_dispatch env fire1 n r1 i)
    (handleTopLevel_dispatch env fire2 n r2 i).
Proof.
  revert i.
  induction n as [|n IH]; intros i; cbn [handleTopLevel_dispatch].
  { apply simulates_diverge. }
  apply simulates_bind; [apply (simulates_gets_own r1 r2 (fun b => b))|].
  intros b. destruct (i <? length (ancestors b)); [|apply simulates_ret].
  destruct (nativeEvent b) as [ev|]; [|apply simulates_throw].
  apply simulates_bind; [apply simulates_getEventTarget|]. intros tgt.
  apply simulates_bind; [apply simulates_runExtractedPluginEventsInBatch|].
  intros _. apply IH.
Qed.

Lemma simulates_handleTopLevel r1 r2 :
  simulates (Some (r1, r2))
    (handleTopLevel env fuel fire1 r1) (handleTopLevel env fuel fire2 r2).
Proof.
  apply simulates_bind; [apply (simulates_gets_own r1 r2 targetInst)|].
  intros t.
  apply simulates_bind; [apply simulates_handleTopLevel_ancestors|].
  intros _. apply simulates_handleTopLevel_dispatch.
Qed.

Lemma simulates_batchedEventUpdates (fn1 fn2 : Ref -> M unit) r1 r2 :
  simulates (Some (r1, r2)) (fn1 r1) (fn2 r2) ->
  simulates (Some (r1, r2))
    (batchedEventUpdates env fire1 fn1 r1) (batchedEventUpdates env fire2 fn2 r2).
Proof.
  intros Hfn.
  apply simulates_bind; [apply (simulates_gets_own r1 r2 (fun b => b))|].
  intros b. apply simulates_bind; [apply simulates_call|]. intros _.
  apply simulates_try_finally; auto using simulates_finishEventHandler.
Qed.

Lemma simulates_dispatchEventForPluginEventSystem k fl ev t :
  simulates None
    (dispatchEventForPluginEventSystem env p1 fuel fire1 k fl ev t)
    (dispatchEventForPluginEventSystem env p2 fuel fire2 k fl ev t).
Proof.
  intros s1 s2 I1 I2 S _.
  unfold dispatchEventForPluginEventSystem, bind.
  destruct (acquire_spec p1 k ev t s1 I1)
    as (r1 & s1' & -> & E1 & U1 & N1 & C1 & W1 & F1 & T1).
  destruct (acquire_spec p2 k ev t s2 I2)
    as (r2 & s2' & -> & E2 & U2 & N2 & C2 & W2 & F2 & T2).
  assert (sim s1' s2') as S'.
  { destruct S as [W F C]. split; congruence. }
  destruct (simulates_batchedEventUpdates _ _ r1 r2
              (simulates_handleTopLevel r1 r2) s1' s2')
    as (B1 & B2 & S'' & (U1' & U2' & Eq) & R);
    [apply E1|apply E2|done|by cbn; rewrite C1, C2|].
  unfold try_finally.
  destruct (batchedEventUpdates env fire1 (handleTopLevel env fuel fire1) r1 s1')
    as [s1'' res1].
  destruct (batchedEventUpdates env fire2 (handleTopLevel env fuel fire2) r2 s2')
    as [s2'' res2].
  cbn in B1, B2, S'', U1', U2', Eq, R. subst res2.
  pose proof (evolves_past_own _ _ _ _ E1 N1 B1) as P1.
  pose proof (evolves_past_own _ _ _ _ E2 N2 B2) as P2.
  assert (sim (releaseBookKeeping p1 r1 s1'') (releaseBookKeeping p2 r2 s2''))
    as SR.
  { destruct (release_spec p1 r1 s1'' (ev_inv _ _ _ B1) U1')
      as (_ & _ & _ & W1' & F1' & T1').
    destruct (release_spec p2 r2 s2'' (ev_inv _ _ _ B2) U2')
      as (_ & _ & _ & W2' & F2' & T2').
    destruct S'' as [W F C]. split; congruence. }
  destruct res1; cbn; splits; auto using evolves_release.
Qed.

Lemma simulates_dispatchEvent k fl ev :
  simulates None (dispatchEvent env p1 fuel fire1 k fl ev)
                 (dispatchEvent env p2 fuel fire2 k fl ev).
Proof.
  unfold dispatchEvent.
  apply simulates_bind; [apply simulates_gets; by intros ?? []|].
  intros enabled. destruct (negb enabled); [apply simulates_ret|].
  apply simulates_bind; [apply simulates_getEventTarget|]. intros tgt.
  apply simulates_bind; [apply simulates_getClosestInstanceFromNode|].
  intros t.
  apply simulates_bind.
  { destruct t as [inst|]; [|apply simulates_ret].
    apply simulates_bind; [apply simulates_isFiberMounted|].
    intros mounted. destruct (negb mounted); apply simulates_ret. }
  intros t'.
  destruct (enableEventAPI env); [destruct (_ =? _)%Z|];
    auto using simulates_dispatchEventForPluginEventSystem,
               simulates_dispatchEventForResponderEventSystem.
Qed.

Lemma simulates_discreteUpdates
    (fn1 fn2 : DOMTopLevelEventType -> EventSystemFlags -> AnyNativeEvent -> M unit)
    a b c :
  simulates None (fn1 a b c) (fn2 a b c) ->
  simulates None (discreteUpdates env fire1 fn1 a b c)
                 (discreteUpdates env fire2 fn2 a b c).
Proof.
  intros Hfn. apply simulates_bind; [apply simulates_call|]. intros _.
  apply simulates_try_finally; auto using simulates_finishEventHandler.
Qed.

Lemma simulates_dispatchInteractiveEvent k fl ev :
  simulates None (dispatchInteractiveEvent env p1 fuel fire1 k fl ev)
                 (dispatchInteractiveEvent env p2 fuel fire2 k fl ev).
Proof.
  unfold dispatchInteractiveEvent.
  apply simulates_bind.
  { destruct (negb _);
      [apply simulates_ret|apply simulates_shouldflushDiscreteUpdates]. }
  intros flush. apply simulates_bind.
  { destruct flush; [apply simulates_flushDiscreteUpdates|apply simulates_ret]. }
  intros _. apply simulates_discreteUpdates, simulates_dispatchEvent.
Qed.

Lemma simulates_invokeListener l ev :
  simulates None (invokeListener env p1 fuel fire1 l ev)
                 (invokeListener env p2 fuel fire2 l ev).
Proof.
  destruct l; cbn;
    auto using simulates_dispatchEvent, simulates_dispatchInteractiveEvent.
Qed.

Lemma simulates_hostCalls l ev :
  simulates None (hostCalls env p1 fuel fire1 l ev)
                 (hostCalls env p2 fuel fire2 l ev).
Proof.
  intros s1 s2 I1 I2 S _.
  destruct (simulates_invokeListener l ev s1 s2 I1 I2 S I)
    as (E1 & E2 & S' & _ & R).
  unfold hostCalls.
  destruct (invokeListener env p1 fuel fire1 l ev s1) as [s1' res1].
  destruct (invokeListener env p2 fuel fire2 l ev s2) as [s2' res2].
  cbn in E1, E2, S', R. subst res2.
  destruct res1; cbn; splits; auto.
  - eapply evolves_trans; [done|].
    apply benign_evolves; [apply benign_record_uncaught|apply E1].
  - eapply evolves_trans; [done|].
    apply benign_evolves; [apply benign_record_uncaught|apply E2].
  - by apply sim_record.
Qed.

End Simulation.

Lemma simulates_fireNative env p1 p2 depth l ev :
  simulates None (fireNative env p1 depth l ev) (fireNative env p2 depth l ev).
Proof.
  revert l ev. induction depth as [|d IH]; intros l ev; cbn [fireNative].
  - apply simulates_diverge.
  - by apply simulates_hostCalls.
Qed.

Lemma simulates_fireAll env p1 p2 depth events :
  simulates None (fireAll env p1 depth events) (fireAll env p2 depth events).
Proof.
  induction events as [|[l ev] rest IH]; cbn [fireAll].
  - apply simulates_ret.
  - apply simulates_bind; [apply simulates_fireNative|done].
Qed.

(** ** Stability of the program itself *)

Lemma simulates_stable {A} (m : M A) : simulates None m m -> stable m.
Proof.
  intros Hm s Hinv.
  by destruct (Hm s s Hinv Hinv (sim_refl s) I) as (E & _).
Qed.

Lemma simulates_own {A} r (m : M A) s :
  simulates (Some (r, r)) m m -> poolInv s -> inUse s r ->
  evolves (Some r) s (fst (m s)).
Proof.
  intros Hm Hinv Hr.
  by destruct (Hm s s Hinv Hinv (sim_refl s) (conj Hr (conj Hr eq_refl)))
    as (E & _).
Qed.

Lemma stable_bind {A B} (m : M A) (f : A -> M B) :
  stable m -> (forall a, stable (f a)) -> stable (bind m f).
Proof.
  intros Hm Hf s Hinv. specialize (Hm s Hinv). unfold bind.
  destruct (m s) as [s1 [a| |]]; cbn in *; auto.
  eapply evolves_trans; [done|]. apply Hf, Hm.
Qed.

Lemma stable_fireNative env p depth l ev : stable (fireNative env p depth l ev).
Proof. apply simulates_stable, simulates_fireNative. Qed.

Lemma stable_fireAll env p depth events : stable (fireAll env p depth events).
Proof. apply simulates_stable, simulates_fireAll. Qed.

Lemma stable_runExtractedPluginEventsInBatch env p depth k t ev tgt :
  stable (runExtractedPluginEventsInBatch env (fireNative env p depth) k t ev tgt).
Proof.
  apply simulates_stable, simulates_runExtractedPluginEventsInBatch.
  intros. apply simulates_fireNative.
Qed.

Lemma stable_handleTopLevel_dispatch env p depth n r i :
  stable (handleTopLevel_dispatch env (fireNative env p depth) n r i).
Proof.
  revert i. induction n as [|n IH]; intros i; cbn [handleTopLevel_dispatch].
  { intros s Hinv. by apply evolves_refl. }
  apply stable_bind; [intros s Hinv; by apply evolves_refl|].
  intros b. destruct (i <? length (ancestors b));
    [|intros s Hinv; by apply evolves_refl].
  destruct (nativeEvent b) as [ev|]; [|intros s Hinv; by apply evolves_refl].
  apply stable_bind; [intros s Hinv; by apply evolves_refl|]. intros tgt.
  apply stable_bind; [apply stable_runExtractedPluginEventsInBatch|].
  intros _. apply IH.
Qed.

Lemma evolves_batched_handleTopLevel env p depth r s :
  poolInv s -> inUse s r ->
  evolves (Some r) s
    (fst (batchedEventUpdates env (fireNative env p depth)
            (handleTopLevel env depth (fireNative env p depth)) r s)).
Proof.
  apply simulates_own.
  apply simulates_batchedEventUpdates; [|apply simulates_handleTopLevel];
    intros; apply simulates_fireNative.
Qed.

Lemma stable_finishEventHandler env p depth :
  stable (finishEventHandler env (fireNative env p depth)).
Proof.
  apply simulates_stable, simulates_finishEventHandler.
  intros. apply simulates_fireNative.
Qed.

Lemma stable_no_push {A} (m : M A) r s :
  stable m -> poolInv s -> inUse s r ->
  exists t, trace (fst (m s)) = trace s ++ t /\
            (forall a, Pushed r a ∉ t) /\
            poolInv (fst (m s)) /\ inUse (fst (m s)) r.
Proof.
  intros Hm Hinv Hr. destruct (Hm s Hinv) as [I _ U _ (t & T & P)].
  exists t. splits; auto.
  intros a Hin. by specialize (P r a Hin Hr).
Qed.

(** ** Running the monad *)

Lemma bind_val {A B} (m : M A) (f : A -> M B) s s1 a :
  m s = (s1, Val a) -> bind m f s = f a s1.
Proof. unfold bind. by intros ->. Qed.

Lemma bind_thrown {A B} (m : M A) (f : A -> M B) s s1 e :
  m s = (s1, Thrown e) -> bind m f s = (s1, Thrown e).
Proof. unfold bind. by intros ->. Qed.

(** ** Walking the fiber tree *)

Lemma topFiber_rootOf w inst top :
  rootOf w inst top ->
  exists N, forall fuel, N <= fuel -> topFiber fuel w inst = Some top.
Proof.
  induction 1 as [inst Hret|inst parent top Hret _ [N IH]].
  - exists 1. intros [|fuel] ?; [lia|]. cbn. by rewrite Hret.
  - exists (S N). intros [|fuel] ?; [lia|]. cbn. rewrite Hret. apply IH. lia.
Qed.

Lemma rootOf_functional w inst top1 top2 :
  rootOf w inst top1 -> rootOf w inst top2 -> top1 = top2.
Proof.
  induction 1; inversion 1; subst; try congruence.
  apply IHrootOf. congruence.
Qed.

Lemma findRootContainerNode_mounted w inst c :
  mountedIn w inst c ->
  exists N, forall fuel s, N <= fuel -> world s = w ->
    findRootContainerNode fuel inst s = (s, Val (Some c)).
Proof.
  intros (top & Htop & Htag & Hc).
  destruct (topFiber_rootOf _ _ _ Htop) as [N HN].
  exists N. intros fuel s Hfuel <-.
  unfold findRootContainerNode, bind, gets. rewrite (HN fuel Hfuel).
  by rewrite Htag, Hc.
Qed.

Lemma findRootContainerNode_detached w inst :
  detached w inst ->
  exists N, forall fuel s, N <= fuel -> world s = w ->
    findRootContainerNode fuel inst s = (s, Val None).
Proof.
  intros (top & Htop & Htag).
  destruct (topFiber_rootOf _ _ _ Htop) as [N HN].
  exists N. intros fuel s Hfuel <-.
  unfold findRootContainerNode, bind, gets. rewrite (HN fuel Hfuel).
  by apply Z.eqb_neq in Htag as ->.
Qed.

Lemma extended_refl r s : extended r [] s s.
Proof.
  split; auto. rewrite app_nil_r. by destruct (store s r).
Qed.

Lemma extended_trans r l1 l2 s s1 s2 :
  extended r l1 s s1 -> extended r l2 s1 s2 -> extended r (l1 ++ l2) s s2.
Proof.
  intros [W1 F1 N1 P1 O1 R1] [W2 F2 N2 P2 O2 R2].
  split; try congruence.
  - rewrite O2, O1. cbn. by rewrite app_assoc.
  - intros r' Hr'. rewrite R2, R1; auto.
Qed.

Lemma extended_pushAncestor r a s :
  extended r [a] s (fst (pushAncestor r a s)).
Proof.
  split; cbn; auto.
  - by rewrite fn_lookup_insert.
  - intros r' Hr'. by rewrite fn_lookup_insert_ne.
Qed.

Lemma extended_record r e s : extended r [] s (record e s).
Proof.
  split; cbn; auto. rewrite app_nil_r. by destruct (store s r).
Qed.

Lemma handleTopLevel_ancestors_entryPoints r w inst l :
  entryPoints w inst l ->
  exists N, forall fuel n s, N <= fuel -> N <= n -> world s = w ->
    snd (handleTopLevel_ancestors fuel n r (Some inst) s) = Val tt /\
    extended r (map Some l) s
      (fst (handleTopLevel_ancestors fuel n r (Some inst) s)).
Proof.
  induction 1 as [inst Hdet|inst c Hm Hc|inst c outer l Hm Hc _ [N IH]].
  - destruct (findRootContainerNode_detached _ _ Hdet) as [N HN].
    exists (S N). intros fuel [|n] s Hfuel Hn Hw; [lia|].
    cbn [handleTopLevel_ancestors].
    rewrite (bind_val _ _ _ _ _ (HN fuel s ltac:(lia) Hw)). cbn.
    split; [done|apply extended_refl].
  - destruct (findRootContainerNode_mounted _ _ _ Hm) as [N HN].
    exists (S N). intros fuel [|n] s Hfuel Hn Hw; [lia|].
    cbn [handleTopLevel_ancestors].
    rewrite (bind_val _ _ _ _ _ (HN fuel s ltac:(lia) Hw)).
    unfold bind. cbn. rewrite Hw, Hc. cbn. split; [done|].
    apply (extended_trans r [Some inst] [] _
             (fst (pushAncestor r (Some inst) s)));
      [apply extended_pushAncestor|apply extended_record].
  - destruct (findRootContainerNode_mounted _ _ _ Hm) as [N' HN].
    exists (S (N + N')). intros fuel [|n] s Hfuel Hn Hw; [lia|].
    cbn [handleTopLevel_ancestors].
    rewrite (bind_val _ _ _ _ _ (HN fuel s ltac:(lia) Hw)).
    unfold bind. cbn. rewrite Hw, Hc.
    match goal with
    | |- context [handleTopLevel_ancestors _ _ _ _ ?s'] =>
        destruct (IH fuel n s' ltac:(lia) ltac:(lia)) as [Hres Hext];
          [by cbn|]
    end.
    split; [done|].
    eapply (extended_trans r [Some inst] (map Some l)); [|exact Hext].
    apply (extended_trans r [Some inst] [] _
             (fst (pushAncestor r (Some inst) s)));
      [apply extended_pushAncestor|apply extended_record].
Qed.

(** ** Lemmas for the claims *)

Lemma mounted_not_detached w inst c : mountedIn w inst c -> ~ detached w inst.
Proof.
  intros (top & Htop & Htag & _) (top' & Htop' & Htag').
  by rewrite (rootOf_functional _ _ _ _ Htop' Htop) in Htag'.
Qed.

Lemma handleTopLevel_absent env p depth r s k ev :
  2 <= depth -> poolInv s -> inUse s r ->
  store s r = mkBookKeeping (Some k) (Some ev) None [] ->
  handleTopLevel_ancestors depth depth r None s =
    (fst (pushAncestor r None s), Val tt) /\
  ancestors (store (fst (pushAncestor r None s)) r) = [None] /\
  handleTopLevel env depth (fireNative env p depth) r s =
    runExtractedPluginEventsInBatch env (fireNative env p depth)
      (Some k) None ev (eventTarget (world s) ev)
      (fst (pushAncestor r None s)).
Proof.
  intros Hdepth Hinv Hr Hrec.
  destruct depth as [|[|n]]; [lia..|].
  assert (evolves (Some r) s (fst (pushAncestor r None s))) as Hpush.
  { apply simulates_own; auto using simulates_pushAncestor. }
  splits.
  - reflexivity.
  - cbn. by rewrite fn_lookup_insert, Hrec.
  - unfold handleTopLevel.
    rewrite (bind_val _ _ s s None) by (unfold gets; by rewrite Hrec).
    rewrite (bind_val _ _ s (fst (pushAncestor r None s)) tt) by reflexivity.
    assert (eventTarget (world (fst (pushAncestor r None s))) ev =
            eventTarget (world s) ev) as Htgt by reflexivity.
    remember (fst (pushAncestor r None s)) as s1 eqn:Hs1.
    assert (store s1 r = mkBookKeeping (Some k) (Some ev) None [None]) as Hrec1.
    { subst s1. cbn. by rewrite fn_lookup_insert, Hrec. }
    cbn [handleTopLevel_dispatch].
    rewrite (bind_val _ _ s1 s1 (store s1 r)) by reflexivity.
    rewrite Hrec1. cbn [ancestors nativeEvent topLevelType length nth Nat.ltb Nat.leb].
    rewrite (bind_val _ _ s1 s1 (eventTarget (world s) ev))
      by (unfold getEventTarget, gets; by rewrite Htgt).
    pose proof (stable_runExtractedPluginEventsInBatch env p (S (S n))
                  (Some k) None ev (eventTarget (world s) ev) s1
                  (ev_inv _ _ _ Hpush)) as Hrun.
    unfold bind at 1.
    destruct (runExtractedPluginEventsInBatch _ _ _ _ _ _ s1) as [s2 [[]| |]];
      try reflexivity.
    cbn [fst] in Hrun. unfold bind, gets.
    rewrite (ev_frame _ _ _ Hrun r); [|by apply (ev_inUse _ _ _ Hpush)|done].
    by rewrite Hrec1.
Qed.

Lemma findRootContainerNode_state fuel inst s :
  fst (findRootContainerNode fuel inst s) = s.
Proof.
  unfold findRootContainerNode, bind, gets.
  destruct (topFiber _ _ _); [destruct (negb _)|]; done.
Qed.

Lemma handleTopLevel_ancestors_trace fuel n r ancestor s :
  exists t,
    trace (fst (handleTopLevel_ancestors fuel n r ancestor s)) = trace s ++ t /\
    Forall (traversalEvent r) t.
Proof.
  revert ancestor s. induction n as [|n IH]; intros ancestor s.
  { exists []. cbn. by rewrite app_nil_r. }
  destruct ancestor as [inst|]; cbn [handleTopLevel_ancestors].
  - unfold bind at 1.
    pose proof (findRootContainerNode_state fuel inst s) as Hs.
    destruct (findRootContainerNode fuel inst s) as [s' [[root|]| |]];
      cbn in Hs; subst s';
      try (exists []; cbn; by rewrite app_nil_r).
    unfold bind. cbn.
    assert (Forall (traversalEvent r)
              [Pushed r (Some inst); Called (GetClosestInstanceFromNode root)])
      as Hstep.
    { constructor; [left; eauto|].
      constructor; [right; eauto|constructor]. }
    destruct (closestInstance (world s) root) as [next|].
    + match goal with
      | |- context [handleTopLevel_ancestors _ _ _ _ ?s'] =>
          destruct (IH (Some next) s') as (t & -> & Ht)
      end.
      exists ([Pushed r (Some inst); Called (GetClosestInstanceFromNode root)] ++ t).
      split; [cbn; by rewrite <- !app_assoc|by apply Forall_app].
    + exists [Pushed r (Some inst); Called (GetClosestInstanceFromNode root)].
      split; [cbn; by rewrite <- !app_assoc|done].
  - exists [Pushed r None]. split; [done|].
    constructor; [left; eauto|constructor].
Qed.

Lemma dispatchInteractiveEvent_after_flush env p fuel fire k fl ev s :
  dispatchInteractiveEvent env p fuel fire k fl ev s =
  bind (flushIfStale env fire ev)
       (fun _ => discreteUpdates env fire (dispatchEvent env p fuel fire) k fl ev) s.
Proof.
  unfold dispatchInteractiveEvent, flushIfStale, bind.
  destruct (negb (enableEventAPI env)); cbn.
  - reflexivity.
  - by destruct (staleDiscrete (world s) (timeStamp ev)).
Qed.

Lemma dispatchEventForPluginEventSystem_enters_batch env p depth k fl ev t s :
  poolInv s ->
  exists rest,
    trace (fst (dispatchEventForPluginEventSystem env p depth
                  (fireNative env p depth) k fl ev t s)) =
    trace s ++
      Called (BatchedEventUpdates (mkBookKeeping (Some k) (Some ev) t [])) :: rest.
Proof.
  intros Hinv.
  destruct (acquire_spec p k ev t s Hinv)
    as (r & s1 & Hget & E1 & U1 & N1 & C1 & W1 & F1 & T1).
  set (entered := Called (BatchedEventUpdates (mkBookKeeping (Some k) (Some ev) t []))).
  assert (evolves (Some r) (record entered s1)
            (fst (try_finally (handleTopLevel env depth (fireNative env p depth) r)
                    (finishEventHandler env (fireNative env p depth))
                    (record entered s1)))) as E2.
  { apply simulates_own.
    - apply simulates_try_finally;
        [apply simulates_handleTopLevel|apply simulates_finishEventHandler];
        intros; apply simulates_fireNative.
    - apply benign_inv; [apply benign_record_called|apply E1].
    - by apply benign_inUse; [apply benign_record_called|]. }
  destruct (ev_trace _ _ _ E2) as (rest & T2 & _).
  exists rest.
  unfold dispatchEventForPluginEventSystem.
  rewrite (bind_val _ _ _ _ _ Hget).
  unfold try_finally at 1. unfold batchedEventUpdates.
  rewrite (bind_val _ _ s1 s1 (store s1 r)) by reflexivity.
  rewrite (bind_val _ _ s1 (record (Called (BatchedEventUpdates (store s1 r))) s1) tt)
    by reflexivity.
  rewrite C1. fold entered.
  assert (forall s', trace (releaseBookKeeping p r s') = trace s') as Hrel.
  { intros s'. destruct p; cbn; [|done].
    unfold releaseTopLevelCallbackBookKeeping. cbv zeta.
    by destruct (_ <? _). }
  destruct (try_finally _ _ (record entered s1)) as [s2 res].
  cbn [fst] in T2.
  assert (trace s2 = trace s ++ entered :: rest) as T2'.
  { rewrite T2. cbn. by rewrite T1, <- app_assoc. }
  destruct res; cbn; by rewrite ?Hrel.
Qed.

Lemma split_after_prefix {A} (l1 l2 t1 t2 : list A) x :
  l1 ++ l2 = t1 ++ x :: t2 -> x ∉ l1 -> exists t1', l2 = t1' ++ x :: t2.
Proof.
  revert t1. induction l1 as [|y l1 IH]; intros t1 H Hx.
  - by exists t1.
  - destruct t1 as [|z t1]; cbn in H.
    + injection H as -> _. destruct Hx. by left.
    + injection H as -> H. apply (IH t1 H). intros Hin. apply Hx. by right.
Qed.

(** * The claims *)

(** C1.  In a dispatch through the plugin event system the trace splits
    in two after the entry into the batching primitive.  The first part is
    the whole run of the traversal loop: it consists of pushes onto the
    dispatch's record and resolver calls only, so no handler is invoked
    while the sequence is being built.  The second part holds everything
    that follows, every invocation of the pipeline included, also those of
    native events fired from inside handlers; it contains no push onto the
    dispatch's record.  Hence nothing is pushed onto the record after any
    invocation of the pipeline. *)
Theorem ancestors_built_before_delivery env depth k fl ev t s s1 r :
  poolInv s ->
  getTopLevelCallbackBookKeeping k ev t s = (s1, Val r) ->
  let entered :=
    Called (BatchedEventUpdates (mkBookKeeping (Some k) (Some ev) t [])) in
  exists built delivered,
    trace (fst (dispatchEventForPluginEventSystem env Pooling depth
                  (fireNative env Pooling depth) k fl ev t s)) =
      trace s ++ entered :: built ++ delivered /\
    trace (fst (handleTopLevel_ancestors depth depth r t (record entered s1))) =
      trace s ++ entered :: built /\
    Forall (traversalEvent r) built /\
    (forall a, Pushed r a ∉ delivered) /\
    (forall t1 t2 k' t' ev' tgt',
       entered :: built ++ delivered =
         t1 ++ Called (RunExtractedPluginEventsInBatch k' t' ev' tgt') :: t2 ->
       forall a, Pushed r a ∉ t2).
Proof.
  intros Hinv Hget entered.
  cut (exists built delivered,
    trace (fst (dispatchEventForPluginEventSystem env Pooling depth
                  (fireNative env Pooling depth) k fl ev t s)) =
      trace s ++ entered :: built ++ delivered /\
    trace (fst (handleTopLevel_ancestors depth depth r t (record entered s1))) =
      trace s ++ entered :: built /\
    Forall (traversalEvent r) built /\
    (forall a, Pushed r a ∉ delivered)).
  { intros (built & delivered & H1 & H2 & H3 & H4).
    exists built, delivered. splits; auto.
    intros t1 t2 k' t' ev' tgt' Hsplit a Hin.
    destruct (split_after_prefix (entered :: built) delivered t1 t2 _ Hsplit)
      as (t1' & Hdel).
    - intros Hx. apply elem_of_cons in Hx as [Hx|Hx]; [discriminate|].
      rewrite Forall_forall in H3.
      destruct (H3 _ Hx) as [[? ?]|[? ?]]; discriminate.
    - apply (H4 a). rewrite Hdel. apply elem_of_app. right. by right. }
  destruct (acquire_spec Pooling k ev t s Hinv)
    as (r' & s1' & Hget' & E1 & U1 & N1 & C1 & W1 & F1 & T1).
  cbn [acquireBookKeeping] in Hget'. rewrite Hget in Hget'.
  injection Hget' as <- <-.
  set (s2 := record entered s1).
  assert (poolInv s2 /\ inUse s2 r /\ store s2 r = store s1 r /\
          trace s2 = trace s ++ [entered]) as (I2 & U2 & C2 & T2).
  { splits; [by apply benign_inv; [apply benign_record_called|apply E1]
            |by apply benign_inUse; [apply benign_record_called|]
            |done|by cbn; rewrite T1]. }
  destruct (handleTopLevel_ancestors_trace depth depth r t s2)
    as (built & Hbuilt & Hev).
  assert (evolves (Some r) s2
            (fst (handleTopLevel_ancestors depth depth r t s2))) as E3.
  { apply simulates_own; auto using simulates_handleTopLevel_ancestors. }
  exists built.
  unfold dispatchEventForPluginEventSystem. cbn [acquireBookKeeping].
  rewrite (bind_val _ _ _ _ _ Hget).
  unfold try_finally at 1. unfold batchedEventUpdates.
  rewrite (bind_val _ _ s1 s1 (store s1 r)) by reflexivity.
  rewrite (bind_val _ _ s1 (record (Called (BatchedEventUpdates (store s1 r))) s1) tt)
    by reflexivity.
  rewrite C1. fold entered. fold s2.
  unfold try_finally at 1. unfold handleTopLevel.
  rewrite (bind_val _ _ s2 s2 t) by (unfold gets; by rewrite C2, C1).
  unfold bind at 1.
  destruct (handleTopLevel_ancestors depth depth r t s2) as [s3 res3].
  cbn [fst] in *.
  assert (trace s3 = trace s ++ entered :: built) as T3.
  { rewrite Hbuilt, T2, <- app_assoc. done. }
  pose proof (ev_inv _ _ _ E3) as I3.
  pose proof (ev_inUse _ _ _ E3 r U2) as U3.
  assert (forall s', trace (releaseTopLevelCallbackBookKeeping r s') = trace s')
    as Hrel.
  { intros s'. unfold releaseTopLevelCallbackBookKeeping. cbv zeta.
    by destruct (_ <? _). }
  pose proof (fun s' I' U' =>
    stable_no_push _ r s'
      (stable_finishEventHandler env Pooling depth) I' U') as Hfin.
  pose proof (stable_no_push _ r s3
    (stable_handleTopLevel_dispatch env Pooling depth depth r 0) I3 U3)
    as (tD & TD & PD & ID & UD).
  assert (forall tE, (forall a, Pushed r a ∉ tE) ->
                     forall a, Pushed r a ∉ tD ++ tE) as Happ.
  { intros tE PE a Hin. apply elem_of_app in Hin as [Hin|Hin];
      [by apply (PD a)|by apply (PE a)]. }
  destruct res3 as [[]| |].
  - destruct (handleTopLevel_dispatch _ _ _ _ _ s3) as [s4 res4].
    cbn [fst] in *.
    destruct (Hfin s4 ID UD) as (tF & TF & PF & _).
    destruct res4 as [[]| |];
      [destruct (finishEventHandler _ _ s4) as [s5 [[]| |]]..
      |exists tD; cbn; splits; auto;
         by rewrite TD, T3, <- app_assoc];
      cbn [fst] in *; exists (tD ++ tF); cbn; rewrite ?Hrel;
      (splits; auto; by rewrite TF, TD, T3, <- !app_assoc).
  - destruct (Hfin s3 I3 U3) as (tF & TF & PF & _).
    destruct (finishEventHandler _ _ s3) as [s5 [[]| |]];
      cbn [fst] in *; exists tF; cbn; rewrite ?Hrel;
      (splits; auto; by rewrite TF, T3, <- !app_assoc).
  - exists []. rewrite app_nil_r. cbn.
    splits; auto. intros a Hin. by apply elem_of_nil in Hin.
Qed.

Lemma ancestors_built_before_delivery_witness :
  exists built delivered,
    trace (fst (dispatchEventForPluginEventSystem exampleEnv Pooling 3
                  (fireNative exampleEnv Pooling 3) "focus" PLUGIN_EVENT_SYSTEM
                  exampleEvent (Some 1) (initialState exampleWorld))) =
      [] ++ Called (BatchedEventUpdates
                      (mkBookKeeping (Some "focus") (Some exampleEvent)
                         (Some 1) [])) :: built ++ delivered /\
    trace (fst (handleTopLevel_ancestors 3 3 0 (Some 1)
                  (record (Called (BatchedEventUpdates
                      (mkBookKeeping (Some "focus") (Some exampleEvent)
                         (Some 1) [])))
                     (fst (getTopLevelCallbackBookKeeping "focus"
                             exampleEvent (Some 1)
                             (initialState exampleWorld)))))) =
      [] ++ Called (BatchedEventUpdates
                      (mkBookKeeping (Some "focus") (Some exampleEvent)
                         (Some 1) [])) :: built /\
    Forall (traversalEvent 0) built /\
    (forall a, Pushed 0 a ∉ delivered) /\
    (forall t1 t2 k' t' ev' tgt',
       Called (BatchedEventUpdates
                 (mkBookKeeping (Some "focus") (Some exampleEvent) (Some 1) []))
         :: built ++ delivered =
         t1 ++ Called (RunExtractedPluginEventsInBatch k' t' ev' tgt') :: t2 ->
       forall a, Pushed 0 a ∉ t2).
Proof.
  apply (ancestors_built_before_delivery exampleEnv 3 "focus"
           PLUGIN_EVENT_SYSTEM exampleEvent (Some 1)
           (initialState exampleWorld)).
  - split; cbn; [constructor|constructor|constructor|lia].
  - reflexivity.
Defined.

(** C2.  An instance whose parent chain reaches a root-tagged top fiber
    heads the sequence the traversal builds: whenever the nesting of trees
    around it is finite the loop returns, having appended the entry points
    innermost tree first, the instance itself being the first of at least
    one.  When its container is owned by an instance of a second mounted
    tree that is not nested any further, exactly two entries are appended,
    the instance and then the owner of its container. *)
Theorem traversal_innermost_first r w inst container :
  mountedIn w inst container ->
  (forall l, entryPoints w inst l ->
     1 <= length l /\ head l = Some inst /\
     exists N, forall fuel s, N <= fuel -> world s = w ->
       snd (handleTopLevel_ancestors fuel fuel r (Some inst) s) = Val tt /\
       ancestors
         (store (fst (handleTopLevel_ancestors fuel fuel r (Some inst) s)) r) =
       ancestors (store s r) ++ map Some l) /\
  (forall outer container',
     closestInstance w container = Some outer ->
     mountedIn w outer container' ->
     closestInstance w container' = None ->
     exists N, forall fuel s, N <= fuel -> world s = w ->
       snd (handleTopLevel_ancestors fuel fuel r (Some inst) s) = Val tt /\
       ancestors
         (store (fst (handleTopLevel_ancestors fuel fuel r (Some inst) s)) r) =
       ancestors (store s r) ++ [Some inst; Some outer]).
Proof.
  intros Hm.
  assert (forall l, entryPoints w inst l ->
    exists N, forall fuel s, N <= fuel -> world s = w ->
      snd (handleTopLevel_ancestors fuel fuel r (Some inst) s) = Val tt /\
      ancestors
        (store (fst (handleTopLevel_ancestors fuel fuel r (Some inst) s)) r) =
      ancestors (store s r) ++ map Some l) as Hrun.
  { intros l Hl.
    destruct (handleTopLevel_ancestors_entryPoints r _ _ _ Hl) as [N HN].
    exists N. intros fuel s Hfuel Hw.
    destruct (HN fuel fuel s Hfuel Hfuel Hw) as [Hres Hext].
    split; [done|]. by rewrite (ext_own _ _ _ _ Hext). }
  split.
  - intros l Hl. splits; [| |by apply Hrun].
    + inversion Hl; subst; cbn; try lia.
      by destruct (mounted_not_detached _ _ _ Hm).
    + inversion Hl; subst; cbn; try done.
      by destruct (mounted_not_detached _ _ _ Hm).
  - intros outer c' Hc Hm' Hc'.
    apply (Hrun [inst; outer]).
    eapply entry_nested; [done..|]. by eapply entry_outermost.
Qed.

Lemma traversal_innermost_first_witness :
  (1 <= length [1; 3] /\ head [1; 3] = Some 1 /\
   exists N, forall fuel s, N <= fuel -> world s = exampleWorld ->
     snd (handleTopLevel_ancestors fuel fuel 0 (Some 1) s) = Val tt /\
     ancestors (store (fst (handleTopLevel_ancestors fuel fuel 0 (Some 1) s)) 0) =
     ancestors (store s 0) ++ map Some [1; 3]) /\
  (exists N, forall fuel s, N <= fuel -> world s = exampleWorld ->
     snd (handleTopLevel_ancestors fuel fuel 0 (Some 1) s) = Val tt /\
     ancestors (store (fst (handleTopLevel_ancestors fuel fuel 0 (Some 1) s)) 0) =
     ancestors (store s 0) ++ [Some 1; Some 3]).
Proof.
  assert (mountedIn exampleWorld 1 10) as Hinner.
  { exists 2. split; [|split; reflexivity].
    apply rootOf_up with 2; [reflexivity|]. apply rootOf_here. reflexivity. }
  assert (mountedIn exampleWorld 3 20) as Houter.
  { exists 4. split; [|split; reflexivity].
    apply rootOf_up with 4; [reflexivity|]. apply rootOf_here. reflexivity. }
  destruct (traversal_innermost_first 0 exampleWorld 1 10 Hinner) as [HA HB].
  split.
  - apply HA. apply entry_nested with 10 3; [exact Hinner|reflexivity|].
    apply entry_outermost with 20; [exact Houter|reflexivity].
  - apply (HB 3 20); [reflexivity|exact Houter|reflexivity].
Defined.

(** C3.  When the batched call of a plugin-system dispatch throws, the
    dispatch ends by throwing the same error, from the state in which the
    record has been released: its fields are cleared and it is back in the
    pool unless the pool is full.  The pool invariant holds there, and
    whatever is acquired next is a record with the new values and an empty
    sequence. *)
Theorem delivery_failure_releases env depth k fl ev t s s1 r e :
  poolInv s ->
  getTopLevelCallbackBookKeeping k ev t s = (s1, Val r) ->
  snd (batchedEventUpdates env (fireNative env Pooling depth)
         (handleTopLevel env depth (fireNative env Pooling depth)) r s1) =
    Thrown e ->
  let s2 := fst (batchedEventUpdates env (fireNative env Pooling depth)
                   (handleTopLevel env depth (fireNative env Pooling depth)) r s1) in
  let s3 := releaseTopLevelCallbackBookKeeping r s2 in
  dispatchEventForPluginEventSystem env Pooling depth
    (fireNative env Pooling depth) k fl ev t s = (s3, Thrown e) /\
  store s3 r = clearedBookKeeping /\
  callbackBookkeepingPool s3 =
    (if length (callbackBookkeepingPool s2) <? CALLBACK_BOOKKEEPING_POOL_SIZE
     then r :: callbackBookkeepingPool s2 else callbackBookkeepingPool s2) /\
  poolInv s3 /\
  forall k' ev' t', exists r' s4,
    getTopLevelCallbackBookKeeping k' ev' t' s3 = (s4, Val r') /\
    store s4 r' = mkBookKeeping (Some k') (Some ev') t' [].
Proof.
  intros Hinv Hget Hthrown s2 s3.
  destruct (acquire_spec Pooling k ev t s Hinv)
    as (r' & s1' & Hget' & E1 & U1 & N1 & C1 & W1 & F1 & T1).
  cbn [acquireBookKeeping] in Hget'. rewrite Hget in Hget'.
  injection Hget' as <- <-.
  pose proof (evolves_batched_handleTopLevel env Pooling depth r s1
                (ev_inv _ _ _ E1) U1) as E2.
  fold s2 in E2.
  destruct (release_spec Pooling r s2 (ev_inv _ _ _ E2) (ev_inUse _ _ _ E2 r U1))
    as (I3 & _).
  cbn [releaseBookKeeping] in I3. fold s3 in I3.
  splits.
  - unfold dispatchEventForPluginEventSystem. cbn [acquireBookKeeping].
    rewrite (bind_val _ _ _ _ _ Hget). unfold try_finally.
    subst s3 s2.
    destruct (batchedEventUpdates _ _ _ r s1) as [s2 res].
    cbn in Hthrown |- *. by subst res.
  - subst s3. unfold releaseTopLevelCallbackBookKeeping. cbv zeta.
    destruct (_ <? _); cbn; by rewrite fn_lookup_insert.
  - subst s3. unfold releaseTopLevelCallbackBookKeeping. cbv zeta.
    change (callbackBookkeepingPool (setStore r _ s2))
      with (callbackBookkeepingPool s2).
    by destruct (_ <? _).
  - done.
  - intros k' ev' t'.
    destruct (acquire_spec Pooling k' ev' t' s3 I3)
      as (r' & s4 & Hget' & _ & _ & _ & C4 & _).
    by exists r', s4.
Qed.

Lemma delivery_failure_releases_witness :
  dispatchEventForPluginEventSystem exampleEnv Pooling 3
    (fireNative exampleEnv Pooling 3) "scroll" PLUGIN_EVENT_SYSTEM
    exampleEvent (Some 1) (initialState exampleWorld) =
    (releaseTopLevelCallbackBookKeeping 0 exampleFailedBatch,
     Thrown (UserError 7)) /\
  store (releaseTopLevelCallbackBookKeeping 0 exampleFailedBatch) 0 =
    clearedBookKeeping /\
  callbackBookkeepingPool (releaseTopLevelCallbackBookKeeping 0 exampleFailedBatch) =
    (if length (callbackBookkeepingPool exampleFailedBatch)
          <? CALLBACK_BOOKKEEPING_POOL_SIZE
     then 0 :: callbackBookkeepingPool exampleFailedBatch
     else callbackBookkeepingPool exampleFailedBatch) /\
  poolInv (releaseTopLevelCallbackBookKeeping 0 exampleFailedBatch) /\
  forall k' ev' t', exists r' s4,
    getTopLevelCallbackBookKeeping k' ev' t'
      (releaseTopLevelCallbackBookKeeping 0 exampleFailedBatch) = (s4, Val r') /\
    store s4 r' = mkBookKeeping (Some k') (Some ev') t' [].
Proof.
  apply (delivery_failure_releases exampleEnv 3 "scroll" PLUGIN_EVENT_SYSTEM
           exampleEvent (Some 1) (initialState exampleWorld)).
  - split; cbn; [constructor|constructor|constructor|lia].
  - reflexivity.
  - vm_compute. reflexivity.
Defined.

(** C4, the claim as stated fails: with the flag off, an event that
    arrives through the interactive listener still flushes the pending
    discrete updates and enters the discrete batching primitive. *)
Lemma disabled_interactive_listener_not_noop :
  _enabled exampleDisabled = false /\
  trace (fst (invokeListener exampleEnv Pooling 3
                (fireNative exampleEnv Pooling 3)
                (BoundDispatchInteractiveEvent "click" PLUGIN_EVENT_SYSTEM)
                exampleEvent exampleDisabled)) =
    [Called FlushDiscreteUpdates;
     Called (DiscreteUpdates "click" PLUGIN_EVENT_SYSTEM exampleEvent)] /\
  invokeListener exampleEnv Pooling 3 (fireNative exampleEnv Pooling 3)
    (BoundDispatchInteractiveEvent "click" PLUGIN_EVENT_SYSTEM)
    exampleEvent exampleDisabled
    <> (exampleDisabled, Val tt).
Proof.
  splits; [reflexivity|reflexivity|].
  intros H. apply (f_equal (fun x => trace (fst x))) in H. discriminate H.
Qed.

(** C4, amended.  With the flag off [dispatchEvent] returns at once: no
    call into the instance resolver or the pipeline is made and the state
    is left as it was.  Through the interactive listener the staleness
    check, the flush it may ask for and the entry into [discreteUpdates]
    still happen first; if the flag is still off after the flush, the
    dispatch inside is again without effect and all that is left is the
    way out of [discreteUpdates]. *)
Theorem disabled_dispatch_is_noop env p fuel fire k fl ev s :
  _enabled s = false ->
  dispatchEvent env p fuel fire k fl ev s = (s, Val tt) /\
  forall s1,
    flushIfStale env fire ev s = (s1, Val tt) ->
    _enabled s1 = false ->
    invokeListener env p fuel fire (BoundDispatchInteractiveEvent k fl) ev s =
      finishEventHandler env fire (record (Called (DiscreteUpdates k fl ev)) s1).
Proof.
  intros Hoff.
  assert (forall s', _enabled s' = false ->
            dispatchEvent env p fuel fire k fl ev s' = (s', Val tt)) as Hnoop.
  { intros s' Hs'. unfold dispatchEvent, bind, gets. by rewrite Hs'. }
  split; [by apply Hnoop|].
  intros s1 Hflush Hoff1. cbn [invokeListener].
  rewrite dispatchInteractiveEvent_after_flush.
  rewrite (bind_val _ _ _ _ _ Hflush).
  unfold discreteUpdates.
  rewrite (bind_val _ _ s1 (record (Called (DiscreteUpdates k fl ev)) s1) tt)
    by reflexivity.
  unfold try_finally. rewrite Hnoop by done.
  by destruct (finishEventHandler env fire _) as [s2 [[]| |]].
Qed.

Lemma disabled_dispatch_is_noop_witness :
  dispatchEvent exampleEnv Pooling 3 (fireNative exampleEnv Pooling 3)
    "click" PLUGIN_EVENT_SYSTEM exampleEvent exampleDisabled =
    (exampleDisabled, Val tt) /\
  invokeListener exampleEnv Pooling 3 (fireNative exampleEnv Pooling 3)
    (BoundDispatchInteractiveEvent "click" PLUGIN_EVENT_SYSTEM)
    exampleEvent exampleDisabled =
    (record (Called (DiscreteUpdates "click" PLUGIN_EVENT_SYSTEM exampleEvent))
       (record (Called FlushDiscreteUpdates) exampleDisabled),
     Val tt).
Proof.
  destruct (disabled_dispatch_is_noop exampleEnv Pooling 3
              (fireNative exampleEnv Pooling 3) "click" PLUGIN_EVENT_SYSTEM
              exampleEvent exampleDisabled eq_refl) as [H1 H2].
  split; [exact H1|].
  apply H2; reflexivity.
Defined.

(** C5, the claim as stated fails: the listener trapped for an
    interactive kind enters [discreteUpdates], and the dispatch it runs
    inside still enters the default batching primitive
    [batchedEventUpdates]. *)
Lemma interactive_dispatch_enters_default_batch :
  isInteractiveTopLevelEventType exampleEnv "click" = true /\
  trace (fst (trapBubbledEvent exampleEnv "click" 20 (initialState exampleWorld))) =
    [Called (AddEventBubbleListener 20 "click"
               (BoundDispatchInteractiveEvent "click" PLUGIN_EVENT_SYSTEM))] /\
  trace (fst (invokeListener exampleEnv Pooling 3
                (fireNative exampleEnv Pooling 3)
                (BoundDispatchInteractiveEvent "click" PLUGIN_EVENT_SYSTEM)
                exampleEvent (initialState exampleWorld))) =
    [Called FlushDiscreteUpdates;
     Called (DiscreteUpdates "click" PLUGIN_EVENT_SYSTEM exampleEvent);
     Called (GetClosestInstanceFromNode 11);
     Called (IsFiberMounted 1);
     Called (BatchedEventUpdates
               (mkBookKeeping (Some "click") (Some exampleEvent) (Some 1) []));
     Pushed 0 (Some 1);
     Called (GetClosestInstanceFromNode 10);
     Pushed 0 (Some 3);
     Called (GetClosestInstanceFromNode 20);
     Called (RunExtractedPluginEventsInBatch (Some "click") (Some 1)
               exampleEvent 11);
     Called (RunExtractedPluginEventsInBatch (Some "click") (Some 3)
               exampleEvent 11)].
Proof. splits; reflexivity. Qed.

(** C5, amended.  The plugin-system trap binds the interactive listener
    for interactive kinds and the plain dispatch for the others.  The
    interactive listener consults the staleness check only when the event
    API is enabled, flushes the pending discrete updates exactly when the
    event API is disabled or the check says so, and then runs
    [dispatchEvent] inside [discreteUpdates].  A plugin-system dispatch
    that finds the flag on enters [batchedEventUpdates] in either case, so
    for an interactive kind the default batch is nested in the discrete
    one. *)
Theorem interactive_listener_flushes_then_discrete
    env depth k element capture ev s :
  let fire := fireNative env Pooling depth in
  let listener :=
    if isInteractiveTopLevelEventType env k
    then BoundDispatchInteractiveEvent k PLUGIN_EVENT_SYSTEM
    else BoundDispatchEvent k PLUGIN_EVENT_SYSTEM in
  trapEventForPluginEventSystem env element k capture s =
    (record (Called ((if capture then AddEventCaptureListener
                      else AddEventBubbleListener)
                       element (getRawEventName env k) listener)) s,
     Val tt) /\
  (isInteractiveTopLevelEventType env k = true ->
   let flushNeeded :=
     negb (enableEventAPI env) || staleDiscrete (world s) (timeStamp ev) in
   let s0 :=
     if enableEventAPI env
     then record (Called (ShouldflushDiscreteUpdates (timeStamp ev))) s
     else s in
   invokeListener env Pooling depth fire listener ev s =
     (run (if flushNeeded then flushDiscreteUpdates env fire else ret tt);
      run call (DiscreteUpdates k PLUGIN_EVENT_SYSTEM ev);
      try_finally (dispatchEvent env Pooling depth fire k PLUGIN_EVENT_SYSTEM ev)
        (finishEventHandler env fire)) s0) /\
  (isInteractiveTopLevelEventType env k = false ->
   invokeListener env Pooling depth fire listener ev s =
     dispatchEvent env Pooling depth fire k PLUGIN_EVENT_SYSTEM ev s) /\
  (poolInv s -> _enabled s = true ->
   let tgt := eventTarget (world s) ev in
   let resolved := closestInstance (world s) tgt in
   let queries :=
     Called (GetClosestInstanceFromNode tgt) ::
     match resolved with
     | Some inst => [Called (IsFiberMounted inst)]
     | None => []
     end in
   let target :=
     match resolved with
     | Some inst => if fiberMounted (world s) inst then Some inst else None
     | None => None
     end in
   exists rest,
     trace (fst (dispatchEvent env Pooling depth fire k PLUGIN_EVENT_SYSTEM ev s)) =
     trace s ++ queries ++
       Called (BatchedEventUpdates (mkBookKeeping (Some k) (Some ev) target []))
       :: rest).
Proof.
  intros fire listener. splits.
  - unfold trapEventForPluginEventSystem. subst listener.
    by destruct capture, (isInteractiveTopLevelEventType env k).
  - intros Hk flushNeeded s0. subst listener. rewrite Hk.
    cbn [invokeListener]. unfold dispatchInteractiveEvent, discreteUpdates.
    subst flushNeeded s0. destruct (enableEventAPI env); reflexivity.
  - intros Hk. subst listener. by rewrite Hk.
  - intros Hinv Hon tgt resolved queries target.
    assert (exists s1,
      poolInv s1 /\ trace s1 = trace s ++ queries /\
      dispatchEvent env Pooling depth fire k PLUGIN_EVENT_SYSTEM ev s =
      dispatchEventForPluginEventSystem env Pooling depth fire k
        PLUGIN_EVENT_SYSTEM ev target s1) as (s1 & I1 & T1 & ->).
    { unfold dispatchEvent, bind, gets. rewrite Hon. cbn.
      fold tgt. fold resolved. subst queries target.
      destruct resolved as [inst|]; cbn.
      - eexists. splits; [| |destruct (fiberMounted (world s) inst); cbn;
                              destruct (enableEventAPI env); reflexivity].
        + apply benign_inv; [apply benign_record_called|].
          by apply benign_inv; [apply benign_record_called|].
        + cbn. by rewrite <- app_assoc.
      - eexists. splits; [| |destruct (enableEventAPI env); reflexivity].
        + by apply benign_inv; [apply benign_record_called|].
        + done. }
    destruct (dispatchEventForPluginEventSystem_enters_batch env Pooling depth
                k PLUGIN_EVENT_SYSTEM ev target s1 I1) as (rest & Hrest).
    exists rest. fold fire in Hrest. by rewrite Hrest, T1, <- app_assoc.
Qed.

Lemma interactive_listener_flushes_then_discrete_witness :
  exists rest,
    trace (fst (dispatchEvent exampleEnv Pooling 3 (fireNative exampleEnv Pooling 3)
                  "click" PLUGIN_EVENT_SYSTEM exampleEvent
                  (initialState exampleWorld))) =
    [] ++ [Called (GetClosestInstanceFromNode 11); Called (IsFiberMounted 1)] ++
      Called (BatchedEventUpdates
                (mkBookKeeping (Some "click") (Some exampleEvent) (Some 1) []))
      :: rest.
Proof.
  refine (proj2 (proj2 (proj2
    (interactive_listener_flushes_then_discrete exampleEnv 3 "click" 20 false
       exampleEvent (initialState exampleWorld)))) _ _).
  - split; cbn; [constructor|constructor|constructor|lia].
  - reflexivity.
Defined.

(** C6.  When the resolver returns an instance that is reported as not
    mounted, [dispatchEvent] goes on with a null target: after the two
    queries it does what it does, after the one query, when the resolver
    returns nothing.  On the plugin route that is one entry into the
    batching primitive in which the absent marker is pushed and the
    pipeline is invoked once, with the absent target; on the responder
    route it is the one call of the responder system with the absent
    target. *)
Theorem unmounted_instance_treated_as_absent env depth k fl ev s inst :
  let fire := fireNative env Pooling depth in
  let tgt := eventTarget (world s) ev in
  _enabled s = true ->
  closestInstance (world s) tgt = Some inst ->
  fiberMounted (world s) inst = false ->
  dispatchEvent env Pooling depth fire k fl ev s =
    untargetedDispatch env Pooling depth fire k fl ev tgt
      (record (Called (IsFiberMounted inst))
         (record (Called (GetClosestInstanceFromNode tgt)) s)) /\
  (forall s',
     _enabled s' = true ->
     eventTarget (world s') ev = tgt ->
     closestInstance (world s') tgt = None ->
     dispatchEvent env Pooling depth fire k fl ev s' =
       untargetedDispatch env Pooling depth fire k fl ev tgt
         (record (Called (GetClosestInstanceFromNode tgt)) s')) /\
  (forall s1,
     poolInv s1 -> 2 <= depth ->
     exists r s2,
       getTopLevelCallbackBookKeeping k ev None s1 = (s2, Val r) /\
       dispatchEventForPluginEventSystem env Pooling depth fire k fl ev None s1 =
         try_finally
           (try_finally
              (runExtractedPluginEventsInBatch env fire (Some k) None ev
                 (eventTarget (world s1) ev))
              (finishEventHandler env fire))
           (modify (releaseTopLevelCallbackBookKeeping r))
           (fst (pushAncestor r None
                   (record (Called (BatchedEventUpdates
                                      (mkBookKeeping (Some k) (Some ev) None [])))
                      s2)))).
Proof.
  intros fire tgt Hon Hres Hmount. splits.
  - unfold dispatchEvent, untargetedDispatch, bind, gets. rewrite Hon. cbn.
    fold tgt. rewrite Hres. cbn. rewrite Hmount. cbn.
    by destruct (enableEventAPI env).
  - intros s' Hon' Htgt Hres'.
    unfold dispatchEvent, untargetedDispatch, bind, gets. rewrite Hon'. cbn.
    rewrite Htgt, Hres'. cbn.
    by destruct (enableEventAPI env).
  - intros s1 Hinv Hdepth.
    destruct (acquire_spec Pooling k ev None s1 Hinv)
      as (r & s2 & Hget & E1 & U1 & N1 & C1 & W1 & F1 & T1).
    cbn [acquireBookKeeping] in Hget.
    exists r, s2. split; [done|].
    set (entered := Called (BatchedEventUpdates
                              (mkBookKeeping (Some k) (Some ev) None []))).
    pose proof (handleTopLevel_absent env Pooling depth r (record entered s2)
                  k ev Hdepth) as (_ & _ & Heq).
    { apply benign_inv; [apply benign_record_called|apply E1]. }
    { by apply benign_inUse; [apply benign_record_called|]. }
    { done. }
    fold fire in Heq.
    unfold dispatchEventForPluginEventSystem. cbn [acquireBookKeeping releaseBookKeeping].
    rewrite (bind_val _ _ _ _ _ Hget).
    unfold try_finally at 1 3. unfold batchedEventUpdates.
    rewrite (bind_val _ _ s2 s2 (store s2 r)) by reflexivity.
    rewrite (bind_val _ _ s2 (record (Called (BatchedEventUpdates (store s2 r))) s2) tt)
      by reflexivity.
    rewrite C1. fold entered.
    unfold try_finally at 1 2. rewrite Heq.
    cbn [world record]. by rewrite W1.
Qed.

Lemma unmounted_instance_treated_as_absent_witness :
  trace (fst (dispatchEvent exampleEnv Pooling 3 (fireNative exampleEnv Pooling 3)
                "load" PLUGIN_EVENT_SYSTEM (mkNativeEvent 2 50)
                (initialState exampleWorld))) =
    [Called (GetClosestInstanceFromNode 13);
     Called (IsFiberMounted 6);
     Called (BatchedEventUpdates
               (mkBookKeeping (Some "load") (Some (mkNativeEvent 2 50)) None []));
     Pushed 0 None;
     Called (RunExtractedPluginEventsInBatch (Some "load") None
               (mkNativeEvent 2 50) 13)].
Proof.
  rewrite (proj1 (unmounted_instance_treated_as_absent exampleEnv 3 "load"
                    PLUGIN_EVENT_SYSTEM (mkNativeEvent 2 50)
                    (initialState exampleWorld) 6
                    eq_refl eq_refl eq_refl)).
  reflexivity.
Defined.

(** C7.  With an absent target the traversal pushes the absent marker and
    stops, leaving a one-element sequence, and the delivery loop comes
    down to a single invocation of the pipeline with the absent target.
    The record is one handed out by the pool, as in a dispatch. *)
Theorem absent_target_delivered_once env p depth r s k ev :
  2 <= depth -> poolInv s -> inUse s r ->
  store s r = mkBookKeeping (Some k) (Some ev) None [] ->
  handleTopLevel_ancestors depth depth r None s =
    (fst (pushAncestor r None s), Val tt) /\
  ancestors (store (fst (pushAncestor r None s)) r) = [None] /\
  handleTopLevel env depth (fireNative env p depth) r s =
    runExtractedPluginEventsInBatch env (fireNative env p depth)
      (Some k) None ev (eventTarget (world s) ev)
      (fst (pushAncestor r None s)).
Proof. apply handleTopLevel_absent. Qed.

Lemma absent_target_delivered_once_witness :
  trace (fst (handleTopLevel exampleEnv 2 (fireNative exampleEnv Pooling 2) 0
                (fst (getTopLevelCallbackBookKeeping "wheel"
                        (mkNativeEvent 5 70) None (initialState exampleWorld)))))
  = [Pushed 0 None;
     Called (RunExtractedPluginEventsInBatch (Some "wheel") None
               (mkNativeEvent 5 70) 16)].
Proof.
  pose proof (absent_target_delivered_once exampleEnv Pooling 2 0
    (fst (getTopLevelCallbackBookKeeping "wheel" (mkNativeEvent 5 70) None
            (initialState exampleWorld)))
    "wheel" (mkNativeEvent 5 70)) as H.
  destruct H as (_ & _ & ->).
  - lia.
  - split; cbn; [constructor|constructor|constructor|lia].
  - split; cbn; [lia|]. apply not_elem_of_nil.
  - reflexivity.
  - reflexivity.
Defined.

(** C8.  An instance whose parent chain ends at a top fiber that is not a
    root stops the traversal: whatever has been collected so far, the loop
    returns at once without appending it and without an error.  As the
    target of a fresh record this leaves the sequence empty, and
    [handleTopLevel] returns without calling anything; reached from an
    inner mounted tree it ends the sequence after the inner entry. *)
Theorem detached_instance_not_appended env r w inst :
  detached w inst ->
  (exists N, forall fuel s, N <= fuel -> world s = w ->
     (forall n, 1 <= n ->
        handleTopLevel_ancestors fuel n r (Some inst) s = (s, Val tt)) /\
     (targetInst (store s r) = Some inst -> ancestors (store s r) = [] ->
      forall fire, handleTopLevel env fuel fire r s = (s, Val tt))) /\
  (forall inner container,
     mountedIn w inner container ->
     closestInstance w container = Some inst ->
     exists N, forall fuel s, N <= fuel -> world s = w ->
       snd (handleTopLevel_ancestors fuel fuel r (Some inner) s) = Val tt /\
       ancestors
         (store (fst (handleTopLevel_ancestors fuel fuel r (Some inner) s)) r) =
       ancestors (store s r) ++ [Some inner]).
Proof.
  intros Hdet. split.
  - destruct (findRootContainerNode_detached _ _ Hdet) as [N HN].
    exists (S N). intros fuel s Hfuel Hw.
    assert (forall n, 1 <= n ->
              handleTopLevel_ancestors fuel n r (Some inst) s = (s, Val tt))
      as Hloop.
    { intros [|n] Hn; [lia|]. cbn [handleTopLevel_ancestors].
      by rewrite (bind_val _ _ _ _ _ (HN fuel s ltac:(lia) Hw)). }
    split; [done|].
    intros Ht Hanc fire. unfold handleTopLevel.
    rewrite (bind_val _ _ s s (Some inst)) by (unfold gets; by rewrite Ht).
    rewrite (bind_val _ _ s s tt) by (apply Hloop; lia).
    destruct fuel as [|m]; [lia|].
    cbn [handleTopLevel_dispatch].
    rewrite (bind_val _ _ s s (store s r)) by reflexivity.
    by rewrite Hanc.
  - intros inner c Hm Hc.
    destruct (handleTopLevel_ancestors_entryPoints r w inner [inner]) as [N HN].
    { eapply entry_nested; [done..|]. by apply entry_detached. }
    exists N. intros fuel s Hfuel Hw.
    destruct (HN fuel fuel s Hfuel Hfuel Hw) as [Hres Hext].
    split; [done|]. by rewrite (ext_own _ _ _ _ Hext).
Qed.

Lemma detached_instance_not_appended_witness :
  (exists N, forall fuel s, N <= fuel -> world s = exampleWorld ->
     (forall n, 1 <= n ->
        handleTopLevel_ancestors fuel n 0 (Some 5) s = (s, Val tt)) /\
     (targetInst (store s 0) = Some 5 -> ancestors (store s 0) = [] ->
      forall fire, handleTopLevel exampleEnv fuel fire 0 s = (s, Val tt))) /\
  (exists N, forall fuel s, N <= fuel -> world s = exampleWorld ->
     snd (handleTopLevel_ancestors fuel fuel 0 (Some 7) s) = Val tt /\
     ancestors (store (fst (handleTopLevel_ancestors fuel fuel 0 (Some 7) s)) 0) =
     ancestors (store s 0) ++ [Some 7]).
Proof.
  assert (detached exampleWorld 5) as Hdet.
  { exists 5. split; [apply rootOf_here; reflexivity|].
    vm_compute. discriminate. }
  destruct (detached_instance_not_appended exampleEnv 0 exampleWorld 5 Hdet)
    as [HA HB].
  split; [exact HA|].
  apply (HB 7 12); [|reflexivity].
  exists 8. split; [|split; reflexivity].
  apply rootOf_up with 8; [reflexivity|]. apply rootOf_here. reflexivity.
Defined.

(** C9.  Whatever native events the host delivers, and whatever handlers
    do in return, the module makes the same calls with the same arguments
    in the same order, ends the same way and leaves the same world and
    flag, whether records are recycled through the pool or every dispatch
    allocates its own. *)
Theorem pooling_unobservable env depth events s :
  poolInv s ->
  calls (trace (fst (fireAll env Pooling depth events s))) =
    calls (trace (fst (fireAll env AlwaysAllocate depth events s))) /\
  snd (fireAll env Pooling depth events s) =
    snd (fireAll env AlwaysAllocate depth events s) /\
  world (fst (fireAll env Pooling depth events s)) =
    world (fst (fireAll env AlwaysAllocate depth events s)) /\
  _enabled (fst (fireAll env Pooling depth events s)) =
    _enabled (fst (fireAll env AlwaysAllocate depth events s)).
Proof.
  intros Hinv.
  destruct (simulates_fireAll env Pooling AlwaysAllocate depth events
              s s Hinv Hinv (sim_refl s) I) as (_ & _ & [W F C] & _ & R).
  done.
Qed.

Lemma pooling_unobservable_witness :
  calls (trace (fst (fireAll exampleEnv Pooling 4 exampleEvents
                       (initialState exampleWorld)))) =
    calls (trace (fst (fireAll exampleEnv AlwaysAllocate 4 exampleEvents
                         (initialState exampleWorld)))) /\
  snd (fireAll exampleEnv Pooling 4 exampleEvents (initialState exampleWorld)) =
    snd (fireAll exampleEnv AlwaysAllocate 4 exampleEvents
           (initialState exampleWorld)) /\
  world (fst (fireAll exampleEnv Pooling 4 exampleEvents
                (initialState exampleWorld))) =
    world (fst (fireAll exampleEnv AlwaysAllocate 4 exampleEvents
                  (initialState exampleWorld))) /\
  _enabled (fst (fireAll exampleEnv Pooling 4 exampleEvents
                   (initialState exampleWorld))) =
    _enabled (fst (fireAll exampleEnv AlwaysAllocate 4 exampleEvents
                     (initialState exampleWorld))).
Proof.
  apply pooling_unobservable.
  split; cbn; [constructor|constructor|constructor|lia].
Defined.

(** C10.  The pool invariant: every record in the pool is cleared, the
    pool holds at most ten records, no record is in it twice and all of
    them have been allocated.  Acquiring keeps it and yields a record that
    holds the new values and an empty sequence, just as a fresh one would;
    the pooled path itself never resets the sequence, it hands out the one
    the record already has.  Releasing keeps the two stated clauses for
    any record and the whole invariant for a record that is in use, and so
    does every run of the module. *)
Theorem pool_invariant_preserved s :
  poolInv s ->
  (forall k ev t, exists r s1,
     getTopLevelCallbackBookKeeping k ev t s = (s1, Val r) /\
     poolInv s1 /\
     store s1 r = mkBookKeeping (Some k) (Some ev) t [] /\
     r ∉ callbackBookkeepingPool s1) /\
  (forall r,
     Forall (fun r' => store (releaseTopLevelCallbackBookKeeping r s) r' =
                       clearedBookKeeping)
       (callbackBookkeepingPool (releaseTopLevelCallbackBookKeeping r s)) /\
     length (callbackBookkeepingPool (releaseTopLevelCallbackBookKeeping r s))
       <= CALLBACK_BOOKKEEPING_POOL_SIZE /\
     (inUse s r -> poolInv (releaseTopLevelCallbackBookKeeping r s))) /\
  (forall env depth events, poolInv (fst (fireAll env Pooling depth events s))) /\
  (forall s' r rest k ev t,
     callbackBookkeepingPool s' = r :: rest ->
     snd (getTopLevelCallbackBookKeeping k ev t s') = Val r /\
     store (fst (getTopLevelCallbackBookKeeping k ev t s')) r =
       mkBookKeeping (Some k) (Some ev) t (ancestors (store s' r))).
Proof.
  intros Hinv. splits.
  - intros k ev t.
    destruct (acquire_spec Pooling k ev t s Hinv)
      as (r & s1 & Hget & E1 & [_ U1] & _ & C1 & _).
    exists r, s1. splits; auto. apply E1.
  - intros r.
    assert (inUse s r -> poolInv (releaseTopLevelCallbackBookKeeping r s))
      as Hfull.
    { intros Hr. by destruct (release_spec Pooling r s Hinv Hr) as (I' & _). }
    destruct Hinv as [B N C L].
    assert (Forall (fun r' => <[r := mkBookKeeping None None None []]> (store s) r'
                              = clearedBookKeeping)
              (r :: callbackBookkeepingPool s)) as Hall.
    { apply Forall_cons. split; [by rewrite fn_lookup_insert|].
      rewrite Forall_forall in C |- *. intros r' Hr'.
      destruct (decide (r = r')) as [->|Hne];
        [by rewrite fn_lookup_insert|rewrite fn_lookup_insert_ne; auto]. }
    revert Hfull. unfold releaseTopLevelCallbackBookKeeping. cbv zeta.
    change (callbackBookkeepingPool (setStore r _ s))
      with (callbackBookkeepingPool s).
    destruct (_ <? _) eqn:Hlt; intros Hfull.
    + apply Nat.ltb_lt in Hlt. splits; [done|cbn; lia|done].
    + apply Forall_cons in Hall as [_ Hall]. by splits.
  - intros env depth events. apply (stable_fireAll env Pooling depth events s Hinv).
  - intros s' r rest k ev t Hpool.
    unfold getTopLevelCallbackBookKeeping. rewrite Hpool. cbn.
    by rewrite fn_lookup_insert.
Qed.

Lemma pool_invariant_preserved_witness :
  poolInv (fst (fireAll exampleEnv Pooling 4 exampleEvents
                  (initialState exampleWorld))).
Proof.
  refine (proj1 (proj2 (proj2
    (pool_invariant_preserved (initialState exampleWorld) _)))
    exampleEnv 4 exampleEvents).
  split; cbn; [constructor|constructor|constructor|lia].
Defined.

(** * Further properties *)

(** ** findRootContainerNode *)

Lemma topFiber_sound fuel w inst top :
  topFiber fuel w inst = Some top -> rootOf w inst top.
Proof.
  revert inst. induction fuel as [|fuel IH]; intros inst; cbn; [done|].
  destruct (return_ (fiber w inst)) as [parent|] eqn:Hret; intros H.
  - eapply rootOf_up; eauto.
  - injection H as <-. by apply rootOf_here.
Qed.

(** X1.  [findRootContainerNode] only reads: it leaves the state as it is.
    When it returns a container, the instance's parent chain ends at a
    root-tagged fiber mounted into that container; when it returns null,
    the chain ends at a fiber that is not a root; it never throws. *)
Theorem findRootContainerNode_sound fuel inst s :
  fst (findRootContainerNode fuel inst s) = s /\
  match snd (findRootContainerNode fuel inst s) with
  | Val (Some container) => mountedIn (world s) inst container
  | Val None => detached (world s) inst
  | Thrown _ => False
  | Diverged => topFiber fuel (world s) inst = None
  end.
Proof.
  split; [apply findRootContainerNode_state|].
  unfold findRootContainerNode, bind, gets.
  destruct (topFiber fuel (world s) inst) as [top|] eqn:Htop; cbn; [|done].
  apply topFiber_sound in Htop.
  destruct (tag (fiber (world s) top) =? HostRoot)%Z eqn:Htag; cbn.
  - apply Z.eqb_eq in Htag. by exists top.
  - apply Z.eqb_neq in Htag. by exists top.
Qed.

(** X2.  The parent loop has no guard against cycles: when every fiber
    reachable from the instance through [return] has a parent, the loop
    of [findRootContainerNode] runs for ever, and so does the traversal of
    [handleTopLevel] entered with that instance. *)
Theorem findRootContainerNode_cycle (reachable : FiberRef -> Prop) w inst :
  reachable inst ->
  (forall f, reachable f ->
     exists parent, return_ (fiber w f) = Some parent /\ reachable parent) ->
  forall fuel s, world s = w ->
    findRootContainerNode fuel inst s = (s, Diverged) /\
    forall n r, handleTopLevel_ancestors fuel n r (Some inst) s = (s, Diverged).
Proof.
  intros Hinst Hclosed fuel s Hw.
  assert (topFiber fuel w inst = None) as Htop.
  { clear s Hw. revert inst Hinst.
    induction fuel as [|fuel IH]; intros inst Hinst; cbn; [done|].
    destruct (Hclosed inst Hinst) as (parent & -> & Hp). by apply IH. }
  assert (findRootContainerNode fuel inst s = (s, Diverged)) as Hfind.
  { unfold findRootContainerNode, bind, gets. by rewrite Hw, Htop. }
  split; [done|].
  intros [|n] r; cbn [handleTopLevel_ancestors]; [done|].
  unfold bind at 1. by rewrite Hfind.
Qed.

Lemma findRootContainerNode_cycle_witness :
  findRootContainerNode 7 9 (initialState cyclicWorld) =
    (initialState cyclicWorld, Diverged) /\
  forall n r,
    handleTopLevel_ancestors 7 n r (Some 9) (initialState cyclicWorld) =
      (initialState cyclicWorld, Diverged).
Proof.
  apply (findRootContainerNode_cycle (fun f => f = 9) cyclicWorld 9).
  - reflexivity.
  - intros f ->. exists 9. split; reflexivity.
  - reflexivity.
Defined.

(** ** The bookkeeping pool *)

(** X3.  Release followed by acquire is a round trip on the pool as long
    as the pool has room: the record just released is the one handed out,
    holding the new values and an empty sequence; the pool and the
    allocation counter are as before the release, and no other record has
    changed. *)
Theorem release_then_acquire_reuses r s k ev t :
  length (callbackBookkeepingPool s) < CALLBACK_BOOKKEEPING_POOL_SIZE ->
  snd (getTopLevelCallbackBookKeeping k ev t
         (releaseTopLevelCallbackBookKeeping r s)) = Val r /\
  store (fst (getTopLevelCallbackBookKeeping k ev t
                (releaseTopLevelCallbackBookKeeping r s))) r =
    mkBookKeeping (Some k) (Some ev) t [] /\
  callbackBookkeepingPool
    (fst (getTopLevelCallbackBookKeeping k ev t
            (releaseTopLevelCallbackBookKeeping r s))) =
    callbackBookkeepingPool s /\
  nextRef (fst (getTopLevelCallbackBookKeeping k ev t
                  (releaseTopLevelCallbackBookKeeping r s))) = nextRef s /\
  forall r', r' <> r ->
    store (fst (getTopLevelCallbackBookKeeping k ev t
                  (releaseTopLevelCallbackBookKeeping r s))) r' = store s r'.
Proof.
  intros Hroom. apply Nat.ltb_lt in Hroom.
  unfold releaseTopLevelCallbackBookKeeping. cbv zeta.
  change (callbackBookkeepingPool (setStore r _ s))
    with (callbackBookkeepingPool s).
  rewrite Hroom. cbn. splits; try done.
  - by rewrite !fn_lookup_insert.
  - intros r' Hne. by rewrite !fn_lookup_insert_ne.
Qed.

Lemma release_then_acquire_reuses_witness :
  snd (getTopLevelCallbackBookKeeping "click" exampleEvent (Some 1)
         (releaseTopLevelCallbackBookKeeping 0 exampleFailedBatch)) = Val 0 /\
  store (fst (getTopLevelCallbackBookKeeping "click" exampleEvent (Some 1)
                (releaseTopLevelCallbackBookKeeping 0 exampleFailedBatch))) 0 =
    mkBookKeeping (Some "click") (Some exampleEvent) (Some 1) [] /\
  callbackBookkeepingPool
    (fst (getTopLevelCallbackBookKeeping "click" exampleEvent (Some 1)
            (releaseTopLevelCallbackBookKeeping 0 exampleFailedBatch))) =
    callbackBookkeepingPool exampleFailedBatch /\
  nextRef (fst (getTopLevelCallbackBookKeeping "click" exampleEvent (Some 1)
                  (releaseTopLevelCallbackBookKeeping 0 exampleFailedBatch))) =
    nextRef exampleFailedBatch /\
  forall r', r' <> 0 ->
    store (fst (getTopLevelCallbackBookKeeping "click" exampleEvent (Some 1)
                  (releaseTopLevelCallbackBookKeeping 0 exampleFailedBatch))) r' =
    store exampleFailedBatch r'.
Proof.
  apply (release_then_acquire_reuses 0 exampleFailedBatch "click" exampleEvent
           (Some 1)).
  vm_compute. lia.
Defined.

(** X4.  Acquire never hands out a record that is in use: under the pool
    invariant the record it returns differs from every record in use,
    which it leaves untouched and in use. *)
Theorem acquire_avoids_records_in_use s k ev t s1 r r0 :
  poolInv s -> inUse s r0 ->
  getTopLevelCallbackBookKeeping k ev t s = (s1, Val r) ->
  r <> r0 /\ store s1 r0 = store s r0 /\ inUse s1 r0 /\ inUse s1 r.
Proof.
  intros Hinv Hr0 Hget.
  destruct (acquire_spec Pooling k ev t s Hinv)
    as (r' & s1' & Hget' & E1 & U1 & N1 & _).
  cbn [acquireBookKeeping] in Hget'. rewrite Hget in Hget'.
  injection Hget' as <- <-.
  splits.
  - by intros ->.
  - by apply (ev_frame _ _ _ E1).
  - by apply (ev_inUse _ _ _ E1).
  - done.
Qed.

Lemma acquire_avoids_records_in_use_witness :
  1 <> 0 /\
  store (fst (getTopLevelCallbackBookKeeping "click" exampleEvent None
                (fst (getTopLevelCallbackBookKeeping "focus" exampleEvent
                        (Some 1) (initialState exampleWorld))))) 0 =
    store (fst (getTopLevelCallbackBookKeeping "focus" exampleEvent (Some 1)
                  (initialState exampleWorld))) 0 /\
  inUse (fst (getTopLevelCallbackBookKeeping "click" exampleEvent None
                (fst (getTopLevelCallbackBookKeeping "focus" exampleEvent
                        (Some 1) (initialState exampleWorld))))) 0 /\
  inUse (fst (getTopLevelCallbackBookKeeping "click" exampleEvent None
                (fst (getTopLevelCallbackBookKeeping "focus" exampleEvent
                        (Some 1) (initialState exampleWorld))))) 1.
Proof.
  apply (acquire_avoids_records_in_use
           (fst (getTopLevelCallbackBookKeeping "focus" exampleEvent (Some 1)
                   (initialState exampleWorld)))
           "click" exampleEvent None).
  - split; cbn; [constructor|constructor|constructor|lia].
  - split; cbn; [lia|apply not_elem_of_nil].
  - reflexivity.
Defined.

(** X5.  A plugin-system dispatch that returns or throws has released its
    record: in the state it leaves, the record is cleared and is either in
    the pool or was dropped because the pool was full, and the pool
    invariant holds. *)
Theorem dispatch_releases_on_every_exit env depth k fl ev t s s1 r :
  poolInv s ->
  getTopLevelCallbackBookKeeping k ev t s = (s1, Val r) ->
  snd (dispatchEventForPluginEventSystem env Pooling depth
         (fireNative env Pooling depth) k fl ev t s) <> Diverged ->
  store (fst (dispatchEventForPluginEventSystem env Pooling depth
                (fireNative env Pooling depth) k fl ev t s)) r =
    clearedBookKeeping /\
  (r ∈ callbackBookkeepingPool
         (fst (dispatchEventForPluginEventSystem env Pooling depth
                 (fireNative env Pooling depth) k fl ev t s)) \/
   CALLBACK_BOOKKEEPING_POOL_SIZE <=
     length (callbackBookkeepingPool
               (fst (dispatchEventForPluginEventSystem env Pooling depth
                       (fireNative env Pooling depth) k fl ev t s)))) /\
  poolInv (fst (dispatchEventForPluginEventSystem env Pooling depth
                  (fireNative env Pooling depth) k fl ev t s)).
Proof.
  intros Hinv Hget.
  destruct (acquire_spec Pooling k ev t s Hinv)
    as (r' & s1' & Hget' & E1 & U1 & N1 & _).
  cbn [acquireBookKeeping] in Hget'. rewrite Hget in Hget'.
  injection Hget' as <- <-.
  pose proof (evolves_batched_handleTopLevel env Pooling depth r s1
                (ev_inv _ _ _ E1) U1) as E2.
  unfold dispatchEventForPluginEventSystem. cbn [acquireBookKeeping releaseBookKeeping].
  rewrite (bind_val _ _ _ _ _ Hget). unfold try_finally.
  destruct (batchedEventUpdates _ _ _ r s1) as [s2 res]. cbn [fst] in E2.
  destruct (release_spec Pooling r s2 (ev_inv _ _ _ E2) (ev_inUse _ _ _ E2 r U1))
    as (I3 & _).
  cbn [releaseBookKeeping] in I3.
  assert (store (releaseTopLevelCallbackBookKeeping r s2) r = clearedBookKeeping /\
          (r ∈ callbackBookkeepingPool (releaseTopLevelCallbackBookKeeping r s2) \/
           CALLBACK_BOOKKEEPING_POOL_SIZE <=
             length (callbackBookkeepingPool
                       (releaseTopLevelCallbackBookKeeping r s2)))) as [Hc Hp].
  { unfold releaseTopLevelCallbackBookKeeping. cbv zeta.
    change (callbackBookkeepingPool (setStore r _ s2))
      with (callbackBookkeepingPool s2).
    destruct (_ <? _) eqn:Hlt; cbn.
    - split; [by rewrite fn_lookup_insert|]. left. by left.
    - split; [by rewrite fn_lookup_insert|]. right.
      apply Nat.ltb_ge in Hlt. exact Hlt. }
  destruct res; cbn; intros Hres; done.
Qed.

Lemma dispatch_releases_on_every_exit_witness :
  store (fst (dispatchEventForPluginEventSystem exampleEnv Pooling 5
                (fireNative exampleEnv Pooling 5) "focus" PLUGIN_EVENT_SYSTEM
                exampleEvent (Some 1) (initialState exampleWorld))) 0 =
    clearedBookKeeping /\
  (0 ∈ callbackBookkeepingPool
         (fst (dispatchEventForPluginEventSystem exampleEnv Pooling 5
                 (fireNative exampleEnv Pooling 5) "focus" PLUGIN_EVENT_SYSTEM
                 exampleEvent (Some 1) (initialState exampleWorld))) \/
   CALLBACK_BOOKKEEPING_POOL_SIZE <=
     length (callbackBookkeepingPool
               (fst (dispatchEventForPluginEventSystem exampleEnv Pooling 5
                       (fireNative exampleEnv Pooling 5) "focus"
                       PLUGIN_EVENT_SYSTEM exampleEvent (Some 1)
                       (initialState exampleWorld))))) /\
  poolInv (fst (dispatchEventForPluginEventSystem exampleEnv Pooling 5
                  (fireNative exampleEnv Pooling 5) "focus" PLUGIN_EVENT_SYSTEM
                  exampleEvent (Some 1) (initialState exampleWorld))).
Proof.
  apply (dispatch_releases_on_every_exit exampleEnv 5 "focus"
           PLUGIN_EVENT_SYSTEM exampleEvent (Some 1)
           (initialState exampleWorld)
           (fst (getTopLevelCallbackBookKeeping "focus" exampleEvent (Some 1)
                   (initialState exampleWorld))) 0).
  - split; cbn; [constructor|constructor|constructor|lia].
  - reflexivity.
  - intros H. vm_compute in H. discriminate H.
Defined.

(** X6.  A record in use is owned by the dispatch that acquired it:
    whatever native events the host delivers meanwhile, and whatever their
    handlers do, the record keeps its contents and stays out of the
    pool. *)
Theorem record_in_use_is_untouched env depth events s r :
  poolInv s -> inUse s r ->
  store (fst (fireAll env Pooling depth events s)) r = store s r /\
  inUse (fst (fireAll env Pooling depth events s)) r.
Proof.
  intros Hinv Hr.
  pose proof (stable_fireAll env Pooling depth events s Hinv) as E.
  split; [by apply (ev_frame _ _ _ E)|by apply (ev_inUse _ _ _ E)].
Qed.

Lemma record_in_use_is_untouched_witness :
  store (fst (fireAll exampleEnv Pooling 4 exampleEvents
                (fst (getTopLevelCallbackBookKeeping "focus" exampleEvent
                        (Some 1) (initialState exampleWorld))))) 0 =
    store (fst (getTopLevelCallbackBookKeeping "focus" exampleEvent (Some 1)
                  (initialState exampleWorld))) 0 /\
  inUse (fst (fireAll exampleEnv Pooling 4 exampleEvents
                (fst (getTopLevelCallbackBookKeeping "focus" exampleEvent
                        (Some 1) (initialState exampleWorld))))) 0.
Proof.
  apply record_in_use_is_untouched.
  - split; cbn; [constructor|constructor|constructor|lia].
  - split; cbn; [lia|apply not_elem_of_nil].
Defined.

(** ** handleTopLevel *)

Lemma handleTopLevel_dispatch_deliverEach env p depth n r i s k ev t l :
  poolInv s -> inUse s r ->
  store s r = mkBookKeeping k (Some ev) t l ->
  length l - i < n ->
  handleTopLevel_dispatch env (fireNative env p depth) n r i s =
  deliverEach env (fireNative env p depth) k ev (drop i l) s.
Proof.
  revert i s. induction n as [|n IH]; intros i s Hinv Hr Hrec Hn; [lia|].
  cbn [handleTopLevel_dispatch].
  rewrite (bind_val _ _ s s (store s r)) by reflexivity.
  rewrite Hrec. cbn [ancestors nativeEvent topLevelType].
  destruct (Nat.ltb_spec i (length l)) as [Hlt|Hge].
  - destruct (lookup_lt_is_Some_2 l i Hlt) as [a Ha].
    rewrite (drop_S l a i Ha). cbn [deliverEach].
    rewrite (nth_lookup_Some l i None a Ha).
    unfold bind at 1 3. cbn [getEventTarget gets].
    unfold bind at 1 2.
    pose proof (stable_runExtractedPluginEventsInBatch env p depth k a ev
                  (eventTarget (world s) ev) s Hinv) as E.
    destruct (runExtractedPluginEventsInBatch _ _ _ _ _ _ s) as [s2 [[]| |]];
      try reflexivity.
    cbn [fst] in E. apply IH.
    + apply E.
    + by apply (ev_inUse _ _ _ E).
    + rewrite (ev_frame _ _ _ E r); done.
    + lia.
  - by rewrite (drop_ge l i Hge).
Qed.

(** X7.  The delivery loop reads the record afresh in every iteration,
    yet what it delivers is fixed when it starts: on a record in use that
    holds the entries [l], it hands each entry of [l] in order to the
    pipeline, whatever the handlers do in between (change the tree, switch
    the module off, fire further native events), and stops only at an
    error. *)
Theorem delivery_follows_the_sequence_built env p depth r s k ev t l :
  poolInv s -> inUse s r ->
  store s r = mkBookKeeping k (Some ev) t l ->
  length l < depth ->
  handleTopLevel_dispatch env (fireNative env p depth) depth r 0 s =
  deliverEach env (fireNative env p depth) k ev l s.
Proof.
  intros Hinv Hr Hrec Hlen.
  rewrite (handleTopLevel_dispatch_deliverEach env p depth depth r 0 s k ev t l);
    [by rewrite drop_0|done..|lia].
Qed.

Lemma delivery_follows_the_sequence_built_witness :
  handleTopLevel_dispatch exampleEnv (fireNative exampleEnv Pooling 5) 5 0 0
    (fst (handleTopLevel_ancestors 5 5 0 (Some 1)
            (fst (getTopLevelCallbackBookKeeping "wheel" exampleEvent (Some 1)
                    (initialState exampleWorld))))) =
  deliverEach exampleEnv (fireNative exampleEnv Pooling 5) (Some "wheel")
    exampleEvent [Some 1; Some 3]
    (fst (handleTopLevel_ancestors 5 5 0 (Some 1)
            (fst (getTopLevelCallbackBookKeeping "wheel" exampleEvent (Some 1)
                    (initialState exampleWorld))))).
Proof.
  apply (delivery_follows_the_sequence_built exampleEnv Pooling 5 0 _
           (Some "wheel") exampleEvent (Some 1) [Some 1; Some 3]).
  - split; cbn; [constructor|constructor|constructor|lia].
  - split; cbn; [lia|apply not_elem_of_nil].
  - reflexivity.
  - cbn. lia.
Defined.

Lemma handleTopLevel_entryPoints env p r inst l k ev s :
  entryPoints (world s) inst l ->
  poolInv s -> inUse s r ->
  store s r = mkBookKeeping (Some k) (Some ev) (Some inst) [] ->
  exists N, forall depth, N <= depth ->
    snd (handleTopLevel_ancestors depth depth r (Some inst) s) = Val tt /\
    ancestors (store (fst (handleTopLevel_ancestors depth depth r (Some inst) s)) r) =
      map Some l /\
    handleTopLevel env depth (fireNative env p depth) r s =
      deliverEach env (fireNative env p depth) (Some k) ev (map Some l)
        (fst (handleTopLevel_ancestors depth depth r (Some inst) s)).
Proof.
  intros Hl Hinv Hr Hrec.
  destruct (handleTopLevel_ancestors_entryPoints r _ _ _ Hl) as [N HN].
  exists (N + S (length l)). intros depth Hdepth.
  destruct (HN depth depth s ltac:(lia) ltac:(lia) eq_refl) as [Hres Hext].
  assert (evolves (Some r) s
            (fst (handleTopLevel_ancestors depth depth r (Some inst) s))) as E.
  { apply simulates_own; auto using simulates_handleTopLevel_ancestors. }
  pose proof (ext_own _ _ _ _ Hext) as Hown. rewrite Hrec in Hown. cbn in Hown.
  splits; [done|by rewrite Hown|].
  unfold handleTopLevel.
  rewrite (bind_val _ _ s s (Some inst)) by (unfold gets; by rewrite Hrec).
  unfold bind at 1.
  destruct (handleTopLevel_ancestors depth depth r (Some inst) s) as [s3 res3].
  cbn [fst snd] in *. subst res3.
  apply (handleTopLevel_dispatch_deliverEach env p depth depth r 0 s3
           (Some k) ev (Some inst) (map Some l)).
  - apply E.
  - by apply (ev_inUse _ _ _ E).
  - done.
  - rewrite length_map. lia.
Qed.

(** X8.  [handleTopLevel] on a freshly acquired record whose target has
    finitely many trees around it first builds the whole sequence of entry
    points and then delivers the event to each of them, innermost first:
    every entry found by the traversal gets its delivery, in that order,
    from the state the traversal left. *)
Theorem handleTopLevel_delivers_to_every_entry_point env p r inst l k ev s :
  entryPoints (world s) inst l ->
  poolInv s -> inUse s r ->
  store s r = mkBookKeeping (Some k) (Some ev) (Some inst) [] ->
  exists N, forall depth, N <= depth ->
    snd (handleTopLevel_ancestors depth depth r (Some inst) s) = Val tt /\
    ancestors (store (fst (handleTopLevel_ancestors depth depth r (Some inst) s)) r) =
      map Some l /\
    handleTopLevel env depth (fireNative env p depth) r s =
      deliverEach env (fireNative env p depth) (Some k) ev (map Some l)
        (fst (handleTopLevel_ancestors depth depth r (Some inst) s)).
Proof. apply handleTopLevel_entryPoints. Qed.

Lemma handleTopLevel_delivers_to_every_entry_point_witness :
  exists N, forall depth, N <= depth ->
    snd (handleTopLevel_ancestors depth depth 0 (Some 1)
           (fst (getTopLevelCallbackBookKeeping "wheel" exampleEvent (Some 1)
                   (initialState exampleWorld)))) = Val tt /\
    ancestors
      (store (fst (handleTopLevel_ancestors depth depth 0 (Some 1)
                     (fst (getTopLevelCallbackBookKeeping "wheel" exampleEvent
                             (Some 1) (initialState exampleWorld))))) 0) =
      map Some [1; 3] /\
    handleTopLevel exampleEnv depth (fireNative exampleEnv Pooling depth) 0
      (fst (getTopLevelCallbackBookKeeping "wheel" exampleEvent (Some 1)
              (initialState exampleWorld))) =
      deliverEach exampleEnv (fireNative exampleEnv Pooling depth)
        (Some "wheel") exampleEvent (map Some [1; 3])
        (fst (handleTopLevel_ancestors depth depth 0 (Some 1)
                (fst (getTopLevelCallbackBookKeeping "wheel" exampleEvent
                        (Some 1) (initialState exampleWorld))))).
Proof.
  apply (handleTopLevel_delivers_to_every_entry_point exampleEnv Pooling 0 1
           [1; 3] "wheel" exampleEvent).
  - apply entry_nested with 10 3; [|reflexivity|].
    + exists 2. split; [|split; reflexivity].
      apply rootOf_up with 2; [reflexivity|]. apply rootOf_here. reflexivity.
    + apply entry_outermost with 20; [|reflexivity].
      exists 4. split; [|split; reflexivity].
      apply rootOf_up with 4; [reflexivity|]. apply rootOf_here. reflexivity.
  - split; cbn; [constructor|constructor|constructor|lia].
  - split; cbn; [lia|apply not_elem_of_nil].
  - reflexivity.
Defined.

(** X9.  For an instance of a tree that is mounted into a container no
    instance owns, [handleTopLevel] builds the one-entry sequence holding
    that instance and makes exactly one call of the pipeline, targeted at
    it. *)
Theorem single_tree_delivered_once env p r inst container k ev s :
  mountedIn (world s) inst container ->
  closestInstance (world s) container = None ->
  poolInv s -> inUse s r ->
  store s r = mkBookKeeping (Some k) (Some ev) (Some inst) [] ->
  exists N, forall depth, N <= depth ->
    ancestors (store (fst (handleTopLevel_ancestors depth depth r (Some inst) s)) r) =
      [Some inst] /\
    handleTopLevel env depth (fireNative env p depth) r s =
      runExtractedPluginEventsInBatch env (fireNative env p depth)
        (Some k) (Some inst) ev (eventTarget (world s) ev)
        (fst (handleTopLevel_ancestors depth depth r (Some inst) s)).
Proof.
  intros Hm Hc Hinv Hr Hrec.
  destruct (handleTopLevel_entryPoints env p r inst [inst] k ev s)
    as [N HN]; [by eapply entry_outermost|done..|].
  destruct (handleTopLevel_ancestors_entryPoints r (world s) inst [inst])
    as [N' HN']; [by eapply entry_outermost|].
  exists (N + N'). intros depth Hdepth.
  destruct (HN depth ltac:(lia)) as (_ & Hanc & ->).
  destruct (HN' depth depth s ltac:(lia) ltac:(lia) eq_refl) as [_ Hext].
  split; [done|].
  cbn [map deliverEach]. unfold bind, getEventTarget, gets.
  rewrite (ext_world _ _ _ _ Hext).
  by destruct (runExtractedPluginEventsInBatch _ _ _ _ _ _ _) as [s2 [[]| |]].
Qed.

Lemma single_tree_delivered_once_witness :
  exists N, forall depth, N <= depth ->
    ancestors
      (store (fst (handleTopLevel_ancestors depth depth 0 (Some 3)
                     (fst (getTopLevelCallbackBookKeeping "wheel" exampleEvent
                             (Some 3) (initialState exampleWorld))))) 0) =
      [Some 3] /\
    handleTopLevel exampleEnv depth (fireNative exampleEnv Pooling depth) 0
      (fst (getTopLevelCallbackBookKeeping "wheel" exampleEvent (Some 3)
              (initialState exampleWorld))) =
      runExtractedPluginEventsInBatch exampleEnv
        (fireNative exampleEnv Pooling depth) (Some "wheel") (Some 3)
        exampleEvent 11
        (fst (handleTopLevel_ancestors depth depth 0 (Some 3)
                (fst (getTopLevelCallbackBookKeeping "wheel" exampleEvent
                        (Some 3) (initialState exampleWorld))))).
Proof.
  apply (single_tree_delivered_once exampleEnv Pooling 0 3 20 "wheel"
           exampleEvent
           (fst (getTopLevelCallbackBookKeeping "wheel" exampleEvent (Some 3)
                   (initialState exampleWorld)))).
  - exists 4. split; [|split; reflexivity].
    apply rootOf_up with 4; [reflexivity|]. apply rootOf_here. reflexivity.
  - reflexivity.
  - split; cbn; [constructor|constructor|constructor|lia].
  - split; cbn; [lia|apply not_elem_of_nil].
  - reflexivity.
Defined.

(** ** Records allocated when handlers fire no events *)

Lemma keepsPool_ret {A} (a : A) : keepsPool (ret a).
Proof. by intros s. Qed.

Lemma keepsPool_throw {A} e : keepsPool (@throw A e).
Proof. by intros s. Qed.

Lemma keepsPool_diverge {A} : keepsPool (@diverge A).
Proof. by intros s. Qed.

Lemma keepsPool_gets {A} (f : State -> A) : keepsPool (gets f).
Proof. by intros s. Qed.

Lemma keepsPool_modify f :
  (forall s, nextRef (f s) = nextRef s /\
             callbackBookkeepingPool (f s) = callbackBookkeepingPool s) ->
  keepsPool (modify f).
Proof. intros H s. apply H. Qed.

Lemma keepsPool_call c : keepsPool (call c).
Proof. by apply keepsPool_modify. Qed.

Lemma keepsPool_bind {A B} (m : M A) (k : A -> M B) :
  keepsPool m -> (forall a, keepsPool (k a)) -> keepsPool (bind m k).
Proof.
  intros Hm Hk s. unfold bind. specialize (Hm s).
  destruct (m s) as [s1 [a| |]]; cbn [fst] in *; [|done..].
  destruct (Hk a s1) as [-> ->]. done.
Qed.

Lemma keepsPool_try_finally {A} (body : M A) cleanup :
  keepsPool body -> keepsPool cleanup -> keepsPool (try_finally body cleanup).
Proof.
  intros Hb Hc s. unfold try_finally. specialize (Hb s).
  destruct (body s) as [s1 res]; cbn [fst] in *.
  specialize (Hc s1).
  destruct res; [| |done];
    destruct (cleanup s1) as [s2 [[]| |]]; cbn [fst] in *;
    destruct Hc as [-> ->]; done.
Qed.

Create HintDb pool.

#[local] Hint Resolve keepsPool_ret keepsPool_throw keepsPool_diverge
  keepsPool_gets keepsPool_call keepsPool_bind keepsPool_try_finally : pool.

Lemma keepsPool_runScript fire sc :
  noFire sc -> keepsPool (runScript fire sc).
Proof.
  induction sc as [|e|f k IH|b k IH|l ev k IH|k IH]; cbn [runScript noFire];
    intros Hsc; auto with pool.
  - apply keepsPool_bind; [by apply keepsPool_modify|auto].
  - apply keepsPool_bind; [by apply keepsPool_modify|auto].
  - done.
  - apply keepsPool_bind; [auto with pool|]. intros w.
    apply keepsPool_bind; [apply keepsPool_gets|]. intros enabled. auto.
Qed.

Lemma keepsPool_findRootContainerNode fuel inst :
  keepsPool (findRootContainerNode fuel inst).
Proof.
  apply keepsPool_bind; [auto with pool|]. intros w.
  destruct (topFiber fuel w inst); [|auto with pool].
  destruct (negb _); auto with pool.
Qed.

Lemma keepsPool_pushAncestor r a : keepsPool (pushAncestor r a).
Proof. by apply keepsPool_modify. Qed.

Lemma keepsPool_getClosestInstanceFromNode node :
  keepsPool (getClosestInstanceFromNode node).
Proof. apply keepsPool_bind; auto with pool. Qed.

Lemma keepsPool_isFiberMounted inst : keepsPool (isFiberMounted inst).
Proof. apply keepsPool_bind; auto with pool. Qed.

Lemma keepsPool_shouldflushDiscreteUpdates t :
  keepsPool (shouldflushDiscreteUpdates t).
Proof. apply keepsPool_bind; auto with pool. Qed.

#[local] Hint Resolve keepsPool_runScript keepsPool_findRootContainerNode
  keepsPool_pushAncestor keepsPool_getClosestInstanceFromNode
  keepsPool_isFiberMounted keepsPool_shouldflushDiscreteUpdates : pool.

Lemma keepsPool_handleTopLevel_ancestors fuel n r a :
  keepsPool (handleTopLevel_ancestors fuel n r a).
Proof.
  revert a. induction n as [|n IH]; intros a; cbn [handleTopLevel_ancestors];
    [auto with pool|].
  destruct a as [inst|]; [|auto with pool].
  apply keepsPool_bind; [auto with pool|]. intros [root|]; [|auto with pool].
  apply keepsPool_bind; [auto with pool|]. intros _.
  apply keepsPool_bind; [auto with pool|]. intros [a|]; auto with pool.
Qed.

Section Quiet.

Variable env : Env.
Hypothesis Hquiet : quietEnv env.
Variable fuel : nat.
Variable fire : Listener -> AnyNativeEvent -> M unit.

Lemma keepsPool_runExtractedPluginEventsInBatch k t ev tgt :
  keepsPool (runExtractedPluginEventsInBatch env fire k t ev tgt).
Proof.
  apply keepsPool_bind; [auto with pool|]. intros _.
  apply keepsPool_runScript, Hquiet.
Qed.

Lemma keepsPool_dispatchEventForResponderEventSystem k t ev tgt fl :
  keepsPool (dispatchEventForResponderEventSystem env fire k t ev tgt fl).
Proof.
  apply keepsPool_bind; [auto with pool|]. intros _.
  apply keepsPool_runScript, Hquiet.
Qed.

Lemma keepsPool_flushDiscreteUpdates : keepsPool (flushDiscreteUpdates env fire).
Proof.
  apply keepsPool_bind; [auto with pool|]. intros _.
  apply keepsPool_runScript, Hquiet.
Qed.

Lemma keepsPool_finishEventHandler : keepsPool (finishEventHandler env fire).
Proof. apply keepsPool_runScript, Hquiet. Qed.

Lemma keepsPool_handleTopLevel_dispatch n r i :
  keepsPool (handleTopLevel_dispatch env fire n r i).
Proof.
  revert i. induction n as [|n IH]; intros i; cbn [handleTopLevel_dispatch];
    [auto with pool|].
  apply keepsPool_bind; [auto with pool|]. intros b.
  destruct (_ <? _); [|auto with pool].
  destruct (nativeEvent b); [|auto with pool].
  apply keepsPool_bind; [apply keepsPool_gets|]. intros tgt.
  apply keepsPool_bind; [apply keepsPool_runExtractedPluginEventsInBatch|].
  auto.
Qed.

Lemma keepsPool_batched_handleTopLevel r :
  keepsPool (batchedEventUpdates env fire (handleTopLevel env fuel fire) r).
Proof.
  apply keepsPool_bind; [auto with pool|]. intros b.
  apply keepsPool_bind; [auto with pool|]. intros _.
  apply keepsPool_try_finally; [|apply keepsPool_finishEventHandler].
  apply keepsPool_bind; [auto with pool|]. intros t.
  apply keepsPool_bind; [apply keepsPool_handleTopLevel_ancestors|]. intros _.
  apply keepsPool_handleTopLevel_dispatch.
Qed.

Lemma recycled_nextRef s : recycled s -> nextRef s <= 1.
Proof. intros [[-> _]|[-> _]]; lia. Qed.

Lemma keepsPool_recycles (m : M unit) : keepsPool m -> recycles m.
Proof.
  intros Hm s Hs. destruct (Hm s) as [Hn Hp].
  split; [rewrite Hn; by apply recycled_nextRef|].
  intros _. unfold recycled. rewrite Hn, Hp. exact Hs.
Qed.

Lemma recycles_bind_keepsPool {A} (m : M A) (k : A -> M unit) :
  keepsPool m -> (forall a, recycles (k a)) -> recycles (bind m k).
Proof.
  intros Hm Hk s Hs. unfold bind. destruct (Hm s) as [Hn Hp].
  assert (recycled (fst (m s))) as Hs1.
  { unfold recycled. rewrite Hn, Hp. exact Hs. }
  destruct (m s) as [s1 [a| |]]; cbn [fst snd] in *.
  - by apply Hk.
  - split; [by apply recycled_nextRef|done].
  - split; [by apply recycled_nextRef|done].
Qed.

Lemma recycles_bind (m : M unit) (k : unit -> M unit) :
  recycles m -> (forall a, recycles (k a)) -> recycles (bind m k).
Proof.
  intros Hm Hk s Hs. unfold bind. destruct (Hm s Hs) as [Hn Hr].
  destruct (m s) as [s1 [a| |]]; cbn [fst snd] in *.
  - apply Hk. by apply Hr.
  - split; [done|]. intros _. by apply Hr.
  - split; [done|]. intros H. by destruct H.
Qed.

Lemma recycles_try_finally (body cleanup : M unit) :
  recycles body -> keepsPool cleanup -> recycles (try_finally body cleanup).
Proof.
  intros Hb Hc s Hs. unfold try_finally. destruct (Hb s Hs) as [Hn Hr].
  destruct (body s) as [s1 res]; cbn [fst snd] in *.
  destruct (Hc s1) as [Hn2 Hp2].
  destruct res as [[]|e|]; [| |split; [done|intros H; by destruct H]].
  - destruct (cleanup s1) as [s2 [[]| |]]; cbn [fst snd] in *;
      (split; [by rewrite Hn2|]); intros H; try (by destruct H);
      unfold recycled; rewrite Hn2, Hp2; by apply Hr.
  - destruct (cleanup s1) as [s2 [[]| |]]; cbn [fst snd] in *;
      (split; [by rewrite Hn2|]); intros H; try (by destruct H);
      unfold recycled; rewrite Hn2, Hp2; by apply Hr.
Qed.

Lemma acquire_recycled k ev t s :
  recycled s ->
  exists s1,
    getTopLevelCallbackBookKeeping k ev t s = (s1, Val 0) /\
    nextRef s1 = 1 /\ callbackBookkeepingPool s1 = [].
Proof.
  unfold getTopLevelCallbackBookKeeping.
  intros [[Hn Hp]|[Hn Hp]]; rewrite Hp; cbv zeta.
  - rewrite Hn. eexists; split; [reflexivity|]. by cbn.
  - eexists; split; [reflexivity|]. by cbn.
Qed.

Lemma recycles_dispatchEventForPluginEventSystem k fl ev t :
  recycles (dispatchEventForPluginEventSystem env Pooling fuel fire k fl ev t).
Proof.
  intros s Hs.
  destruct (acquire_recycled k ev t s Hs) as (s1 & Hacq & Hn1 & Hp1).
  assert (dispatchEventForPluginEventSystem env Pooling fuel fire k fl ev t s =
          try_finally
            (batchedEventUpdates env fire (handleTopLevel env fuel fire) 0)
            (modify (releaseTopLevelCallbackBookKeeping 0)) s1) as ->.
  { unfold dispatchEventForPluginEventSystem, bind, acquireBookKeeping.
    by rewrite Hacq. }
  unfold try_finally.
  destruct (keepsPool_batched_handleTopLevel 0 s1) as [Hn2 Hp2].
  destruct (batchedEventUpdates _ _ _ _ _) as [s2 res]; cbn [fst snd] in *.
  rewrite Hn1 in Hn2. rewrite Hp1 in Hp2.
  assert (recycled (releaseTopLevelCallbackBookKeeping 0 s2)) as Hrel.
  { right. unfold releaseTopLevelCallbackBookKeeping. cbv zeta. cbn.
    rewrite Hp2. cbn. by rewrite Hn2. }
  destruct res as [[]|e|]; cbn [modify fst snd].
  - split; [by apply recycled_nextRef|done].
  - split; [by apply recycled_nextRef|done].
  - split; [lia|]. intros H; by destruct H.
Qed.

Lemma recycles_dispatchEvent k fl ev :
  recycles (dispatchEvent env Pooling fuel fire k fl ev).
Proof.
  unfold dispatchEvent.
  apply recycles_bind_keepsPool; [auto with pool|]. intros enabled.
  destruct (negb enabled); [apply keepsPool_recycles; auto with pool|].
  apply recycles_bind_keepsPool; [apply keepsPool_gets|]. intros tgt.
  apply recycles_bind_keepsPool; [auto with pool|]. intros t.
  apply recycles_bind_keepsPool.
  { destruct t as [inst|]; [|auto with pool].
    apply keepsPool_bind; [auto with pool|]. intros b.
    destruct (negb b); auto with pool. }
  intros t'.
  destruct (enableEventAPI env);
    [destruct (_ =? _)%Z|];
    try apply recycles_dispatchEventForPluginEventSystem.
  apply keepsPool_recycles, keepsPool_dispatchEventForResponderEventSystem.
Qed.

Lemma recycles_invokeListener l ev :
  recycles (invokeListener env Pooling fuel fire l ev).
Proof.
  destruct l as [k fl|k fl]; cbn [invokeListener];
    [apply recycles_dispatchEvent|].
  unfold dispatchInteractiveEvent.
  apply recycles_bind_keepsPool.
  { destruct (negb _); auto with pool. }
  intros flush.
  apply recycles_bind_keepsPool.
  { destruct flush; [apply keepsPool_flushDiscreteUpdates|auto with pool]. }
  intros _. unfold discreteUpdates.
  apply recycles_bind_keepsPool; [auto with pool|]. intros _.
  apply recycles_try_finally;
    [apply recycles_dispatchEvent|apply keepsPool_finishEventHandler].
Qed.

Lemma recycles_hostCalls l ev :
  recycles (hostCalls env Pooling fuel fire l ev).
Proof.
  intros s Hs. unfold hostCalls.
  destruct (recycles_invokeListener l ev s Hs) as [Hn Hr].
  destruct (invokeListener _ _ _ _ _ _ _) as [s1 [[]|e|]]; cbn [fst snd] in *;
    [done| |done].
  split; [done|]. intros _. by apply Hr.
Qed.

End Quiet.

Lemma recycles_fireNative env depth l ev :
  quietEnv env -> recycles (fireNative env Pooling depth l ev).
Proof.
  intros Hq. destruct depth as [|d]; cbn [fireNative].
  - apply keepsPool_recycles, keepsPool_diverge.
  - by apply recycles_hostCalls.
Qed.

Lemma recycles_fireAll env depth events :
  quietEnv env -> recycles (fireAll env Pooling depth events).
Proof.
  intros Hq. induction events as [|[l ev] rest IH]; cbn [fireAll].
  - apply keepsPool_recycles, keepsPool_ret.
  - apply recycles_bind; [by apply recycles_fireNative|done].
Qed.

(** X10.  Pooling does what it is there for: when the handlers and the
    reconciler fire no native events of their own, so that dispatches do
    not nest, any sequence of native events, whatever the listeners, gets
    by with a single bookkeeping record, and whenever the sequence runs to
    its end, that record is back in the pool or was never needed. *)
Theorem one_record_serves_all_unnested_dispatches env depth events w :
  quietEnv env ->
  nextRef (fst (fireAll env Pooling depth events (initialState w))) <= 1 /\
  (snd (fireAll env Pooling depth events (initialState w)) <> Diverged ->
   length (callbackBookkeepingPool
             (fst (fireAll env Pooling depth events (initialState w)))) =
   nextRef (fst (fireAll env Pooling depth events (initialState w)))).
Proof.
  intros Hq.
  destruct (recycles_fireAll env depth events Hq (initialState w)) as [Hn Hr];
    [by left|].
  split; [done|]. intros Hres.
  by destruct (Hr Hres) as [[-> ->]|[-> ->]].
Qed.

Lemma quietExampleEnv_quiet : quietEnv quietExampleEnv.
Proof.
  split; cbn; try done.
  intros k t ev tgt. by case_bool_decide.
  intros w []; done.
Qed.

Lemma one_record_serves_all_unnested_dispatches_witness :
  nextRef (fst (fireAll quietExampleEnv Pooling 5 exampleEvents
                  (initialState exampleWorld))) <= 1 /\
  (snd (fireAll quietExampleEnv Pooling 5 exampleEvents
          (initialState exampleWorld)) <> Diverged ->
   length (callbackBookkeepingPool
             (fst (fireAll quietExampleEnv Pooling 5 exampleEvents
                     (initialState exampleWorld)))) =
   nextRef (fst (fireAll quietExampleEnv Pooling 5 exampleEvents
                   (initialState exampleWorld)))).
Proof.
  apply (one_record_serves_all_unnested_dispatches quietExampleEnv 5
           exampleEvents exampleWorld).
  exact quietExampleEnv_quiet.
Defined.

(** ** Trapping for the responder system *)

Lemma trapEventForResponderEventSystem_call env element k passive s :
  enableEventAPI env = true ->
  exists c flags,
    trapEventForResponderEventSystem env element k passive s =
      (record (Called c) s, Val tt) /\
    listenerOf c = Some (BoundDispatchEvent k flags) /\
    (flags =? PLUGIN_EVENT_SYSTEM)%Z = false /\
    Z.land flags RESPONDER_EVENT_SYSTEM = RESPONDER_EVENT_SYSTEM /\
    Z.land flags PLUGIN_EVENT_SYSTEM = 0%Z /\
    Z.land flags IS_PASSIVE =
      (if passive && passiveBrowserEventsSupported env then IS_PASSIVE else 0%Z) /\
    Z.land flags IS_ACTIVE =
      (if passive && passiveBrowserEventsSupported env then 0%Z else IS_ACTIVE) /\
    Z.land flags PASSIVE_NOT_SUPPORTED =
      (if passive && negb (passiveBrowserEventsSupported env)
       then PASSIVE_NOT_SUPPORTED else 0%Z) /\
    ((exists e n l, c = AddEventCaptureListenerWithPassiveFlag e n l true) <->
     Z.land flags IS_PASSIVE = IS_PASSIVE).
Proof.
  intros Hapi. unfold trapEventForResponderEventSystem. rewrite Hapi.
  destruct passive, (passiveBrowserEventsSupported env); cbv zeta beta iota;
    eexists _, _; (split; [reflexivity|]);
    (split; [reflexivity|]); splits; try reflexivity.
  all: split; [intros (e & n & l & Hc)|intros Hbit];
    first [reflexivity | discriminate Hc | by vm_compute in Hbit
          | by eexists _, _, _].
Qed.



(** X12.  A listener registered by [trapEventForResponderEventSystem]
    stays clear of the bookkeeping: called by the host while the module is
    enabled, it resolves the target, with no more than the two resolver
    calls, and hands the event to the responder system with the flags of
    its registration; no record is acquired and the plugin pipeline is
    not entered. *)
Theorem responder_listener_bypasses_bookkeeping
    env p fuel fire element k passive c ev s0 s :
  enableEventAPI env = true ->
  trace (fst (trapEventForResponderEventSystem env element k passive s0)) =
    trace s0 ++ [Called c] ->
  _enabled s = true ->
  exists l flags t s1 calls,
    listenerOf c = Some l /\
    world s1 = world s /\ _enabled s1 = _enabled s /\ store s1 = store s /\
    nextRef s1 = nextRef s /\
    callbackBookkeepingPool s1 = callbackBookkeepingPool s /\
    trace s1 = trace s ++ calls /\
    Forall (fun e => (exists n, e = Called (GetClosestInstanceFromNode n)) \/
                     (exists i, e = Called (IsFiberMounted i))) calls /\
    (forall inst, t = Some inst ->
       closestInstance (world s) (eventTarget (world s) ev) = Some inst /\
       fiberMounted (world s) inst = true) /\
    invokeListener env p fuel fire l ev s =
      dispatchEventForResponderEventSystem env fire k t ev
        (eventTarget (world s) ev) flags s1.
Proof.
  intros Hapi Htrace Hen.
  destruct (trapEventForResponderEventSystem_call env element k passive s0 Hapi)
    as (c' & flags & Htrap & Hl & Hflags & _).
  rewrite Htrap in Htrace. cbn in Htrace.
  apply app_inv_head in Htrace. injection Htrace as ->.
  exists (BoundDispatchEvent k flags), flags.
  cbn [invokeListener]. unfold dispatchEvent, bind, gets, getEventTarget.
  rewrite Hen, Hapi, Hflags. cbn [negb].
  unfold getClosestInstanceFromNode, isFiberMounted, bind, call, modify, gets, ret.
  cbn [world record].
  destruct (closestInstance (world s) (eventTarget (world s) ev)) as [inst|] eqn:Hc.
  - cbn [world record].
    destruct (fiberMounted (world s) inst) eqn:Hm; cbn [negb].
    + exists (Some inst),
        (record (Called (IsFiberMounted inst))
           (record (Called (GetClosestInstanceFromNode (eventTarget (world s) ev)))
              s)),
        [Called (GetClosestInstanceFromNode (eventTarget (world s) ev));
         Called (IsFiberMounted inst)].
      splits; try done.
      * cbn. by rewrite <- app_assoc.
      * constructor; [left; eauto|]. constructor; [right; eauto|constructor].
      * by intros ? [= <-].
    + exists None,
        (record (Called (IsFiberMounted inst))
           (record (Called (GetClosestInstanceFromNode (eventTarget (world s) ev)))
              s)),
        [Called (GetClosestInstanceFromNode (eventTarget (world s) ev));
         Called (IsFiberMounted inst)].
      splits; try done.
      * cbn. by rewrite <- app_assoc.
      * constructor; [left; eauto|]. constructor; [right; eauto|constructor].
  - exists None,
      (record (Called (GetClosestInstanceFromNode (eventTarget (world s) ev))) s),
      [Called (GetClosestInstanceFromNode (eventTarget (world s) ev))].
    splits; try done.
    constructor; [left; eauto|constructor].
Qed.

Lemma responder_listener_bypasses_bookkeeping_witness :
  exists l flags t s1 calls,
    listenerOf (AddEventCaptureListenerWithPassiveFlag 10 "scroll"
                  (BoundDispatchEvent "scroll" 6%Z) true) = Some l /\
    world s1 = world (initialState exampleWorld) /\
    _enabled s1 = _enabled (initialState exampleWorld) /\
    store s1 = store (initialState exampleWorld) /\
    nextRef s1 = nextRef (initialState exampleWorld) /\
    callbackBookkeepingPool s1 =
      callbackBookkeepingPool (initialState exampleWorld) /\
    trace s1 = trace (initialState exampleWorld) ++ calls /\
    Forall (fun e => (exists n, e = Called (GetClosestInstanceFromNode n)) \/
                     (exists i, e = Called (IsFiberMounted i))) calls /\
    (forall inst, t = Some inst ->
       closestInstance (world (initialState exampleWorld))
         (eventTarget (world (initialState exampleWorld)) exampleEvent) =
         Some inst /\
       fiberMounted (world (initialState exampleWorld)) inst = true) /\
    invokeListener quietExampleEnv Pooling 5
      (fireNative quietExampleEnv Pooling 5)
      (l) exampleEvent (initialState exampleWorld) =
      dispatchEventForResponderEventSystem quietExampleEnv
        (fireNative quietExampleEnv Pooling 5) "scroll" t exampleEvent
        (eventTarget (world (initialState exampleWorld)) exampleEvent) flags s1.
Proof.
  apply (responder_listener_bypasses_bookkeeping quietExampleEnv Pooling 5
           (fireNative quietExampleEnv Pooling 5) 10 "scroll" true
           (AddEventCaptureListenerWithPassiveFlag 10 "scroll"
              (BoundDispatchEvent "scroll" 6%Z) true)
           exampleEvent (initialState exampleWorld) (initialState exampleWorld));
    reflexivity.
Defined.

(** ** Listeners of the plugin system and the responder switch *)



